(** * tauri-notice-window: the message queue, its Dexie table and the
      notice-window adapter, embedded in Rocq.

    The development follows the TypeScript sources:
    - [types/message.ts]           records [WindowPosition], [MessageType],
                                   [StoredMessage], [NoticeConfig];
    - [utils/db.ts]                the Dexie table [messages] and its helpers;
    - [stores/messageQueueStore.ts] the zustand store and its actions;
    - [utils/noticeWindow.ts]      [calculateWindowPosition],
                                   [createNoticeWindow], [closeNoticeWindow];
    - [hooks/useHideNotice.ts]     [hideNotice].

    Modelling conventions.
    - A JavaScript [number] is an IEEE 754 double: Rocq's primitive
      [float], with its rounding, signed zeros, infinities and [nan].
      [queuePosition] only ever receives [0] or an array index and is an
      integer ([Z]).
    - A promise is a computation in the monad [M]: it threads the [World]
      (store state, table, open windows, environment), may reject with an
      [Error], and records the [Event]s it produces.  State changes made
      before a rejection stay in place, as in JavaScript.
    - [await c] is sequencing.  A call whose promise is dropped (no [await])
      is [spawn c]: it runs to completion and its outcome is discarded.
      The only such call in the store is the [showNext] of [clearCurrent];
      every [set] of [showNext] precedes its first [await], so the store
      state [clearCurrent] returns with is the one computed here.  The
      table writes of the dropped [showNext] are placed here, before the
      caller's next call; in the code they settle later.
    - One execution context is modelled: the [syncTabs] wrapper, which
      copies the state between windows, is not.  The store subscriber of
      [initializeNoticeWindowSystem] is not part of the actions either;
      where a run needs the window it would open, the run calls
      [createNoticeWindow] itself.
    - Every call that reaches IndexedDB consumes one entry of the fault
      script [faults]: [true] makes that call reject and leaves the table
      unchanged; [false], or an exhausted script, lets it succeed. *)

From Stdlib Require Import Floats.
From stdpp Require Import gmap strings list fin_maps sorting.

Open Scope Z_scope.

(** ** types/message.ts *)

Inductive PositionPreset :=
  | right_bottom | right_top | left_bottom | left_top | center.

Record WindowPosition := mkWindowPosition {
  wp_x : option float;
  wp_y : option float;
  wp_position : option PositionPreset;
  wp_padding : option float
}.

Record MessageType := mkMessage {
  id : string;
  title : string;
  type : string;
  data : string;
  min_width : option float;
  min_height : option float;
  windowPosition : option WindowPosition
}.

Inductive QueueStatus := pending | showing | shown | hidden.

#[global] Instance QueueStatus_eq_dec : EqDecision QueueStatus.
Proof. solve_decision. Defined.

(** [StoredMessage extends MessageType]: the message fields are kept as the
    sub-record [message]. *)
Record StoredMessage := mkStored {
  message :> MessageType;
  timestamp : string;
  isRead : bool;
  isShown : bool;
  queueStatus : QueueStatus;
  queuePosition : Z
}.

Record NoticeConfig := mkConfig {
  routePrefix : string;
  databaseName : string;
  defaultWidth : float;
  defaultHeight : float
}.

Definition defaultConfig : NoticeConfig :=
  {| routePrefix := "/notice"; databaseName := "tauri-notice-db";
     defaultWidth := 400%float; defaultHeight := 300%float |}.

(** ** The Dexie table [messages: 'id, queueStatus, queuePosition, timestamp']

    The table is a finite map from the primary key [id] to the row. *)

Abbreviation DB := (gmap string StoredMessage).

(** The object passed to [Table.update(key, changes)]: the fields it sets. *)
Record Changes := mkChanges {
  set_queueStatus : option QueueStatus;
  set_isShown : option bool;
  set_queuePosition : option Z
}.

Definition apply_changes (c : Changes) (r : StoredMessage) : StoredMessage :=
  {| message := message r;
     timestamp := timestamp r;
     isRead := isRead r;
     isShown := default (isShown r) (set_isShown c);
     queueStatus := default (queueStatus r) (set_queueStatus c);
     queuePosition := default (queuePosition r) (set_queuePosition c) |}.

(** A stable insertion sort: [x] is placed before the first element it is
    not greater than, so equal elements keep their relative order (the
    behaviour of [Array.prototype.sort] with a comparator). *)
Fixpoint insert_sorted {A} (le : A → A → bool) (x : A) (l : list A)
  : list A :=
  match l with
  | [] => [x]
  | y :: l' => if le x y then x :: l else y :: insert_sorted le x l'
  end.

Definition stable_sort {A} (le : A → A → bool) (l : list A) : list A :=
  foldr (insert_sorted le) [] l.

Module Table.

(** [put(obj)]: insert or replace by primary key. *)
Definition put (r : StoredMessage) (d : DB) : DB := <[id r := r]> d.

(** [get(key)] *)
Definition get (k : string) (d : DB) : option StoredMessage := d !! k.

(** [update(key, changes)]: modifies the row when it exists, does nothing
    otherwise. *)
Definition update (k : string) (c : Changes) (d : DB) : DB :=
  alter (apply_changes c) k d.

(** [where('queueStatus').anyOf(statuses)]: the rows the collection
    selects. *)
Definition where_queueStatus (statuses : list QueueStatus) (d : DB) : DB :=
  filter (λ kr, queueStatus kr.2 ∈ statuses) d.

(** A collection is traversed in primary-key order.  Keys are compared
    byte by byte, which is IndexedDB's order (by UTF-16 code unit) on ASCII
    ids; the order of rows is only ever observed for rows of equal
    [queuePosition]. *)
Definition toArray (d : DB) : list StoredMessage :=
  (stable_sort (λ a b, String.leb a.1 b.1) (map_to_list d)).*2.

(** [collection.sortBy('queuePosition')]: [toArray] followed by a sort on
    the key path. *)
Definition sortBy_queuePosition (d : DB) : list StoredMessage :=
  stable_sort (λ a b, queuePosition a <=? queuePosition b) (toArray d).

(** [collection.delete()]: removes the selected rows. *)
Definition delete_where (statuses : list QueueStatus) (d : DB) : DB :=
  filter (λ kr, queueStatus kr.2 ∉ statuses) d.

End Table.

(** ** The world of one execution context *)

(** The zustand state of [messageQueueStore.ts]. *)
Record QueueState := mkQueueState {
  queue : list MessageType;
  currentMessage : option MessageType;
  isProcessing : bool;
  initialized : bool;
  activeWindowIds : list string
}.

Definition initialState : QueueState :=
  {| queue := []; currentMessage := None; isProcessing := false;
     initialized := false; activeWindowIds := [] |}.

(** The options a [WebviewWindow] was created with. *)
Record Webview := mkWebview {
  win_label : string;
  win_url : string;
  win_title : string;
  win_width : float;
  win_height : float;
  win_x : float;
  win_y : float
}.

(** What [primaryMonitor()] answers. *)
Inductive MonitorQuery :=
  | monitor_throws
  | monitor_null
  | monitor_size (width height : float).

Record World := mkWorld {
  store : QueueState;                    (* useMessageQueueStore *)
  db : DB;                               (* getDb().messages *)
  faults : list bool;                    (* fault script of the table calls *)
  now : string;                          (* new Date().toISOString() *)
  activeWindows : gmap string Webview;   (* noticeWindow.ts: activeWindows *)
  config : NoticeConfig;                 (* getNoticeConfig() *)
  monitor : MonitorQuery;                (* primaryMonitor() *)
  webviewThrows : bool;                  (* new WebviewWindow(...) throws *)
  closeRejects : bool                    (* window.close() rejects *)
}.

Definition with_store (s : QueueState) (w : World) : World :=
  {| store := s; db := db w; faults := faults w; now := now w;
     activeWindows := activeWindows w; config := config w;
     monitor := monitor w; webviewThrows := webviewThrows w;
     closeRejects := closeRejects w |}.

Definition with_db (d : DB) (fs : list bool) (w : World) : World :=
  {| store := store w; db := d; faults := fs; now := now w;
     activeWindows := activeWindows w; config := config w;
     monitor := monitor w; webviewThrows := webviewThrows w;
     closeRejects := closeRejects w |}.

Definition with_windows (a : gmap string Webview) (w : World) : World :=
  {| store := store w; db := db w; faults := faults w; now := now w;
     activeWindows := a; config := config w;
     monitor := monitor w; webviewThrows := webviewThrows w;
     closeRejects := closeRejects w |}.

(** The table calls made by [db.ts]. *)
Inductive DbCall :=
  | call_put (r : StoredMessage)
  | call_get (k : string)
  | call_update (k : string) (c : Changes)
  | call_sortBy (statuses : list QueueStatus)
  | call_delete (statuses : list QueueStatus).

Inductive Error :=
  | store_rejected (c : DbCall)
  | monitor_failed
  | webview_failed
  | close_failed.

Inductive Event :=
  | ev_set (s : QueueState)          (* a [set(...)]: what subscribers see *)
  | ev_showNext                      (* [showNext] was entered *)
  | ev_db (c : DbCall) (ok : bool)   (* a table call and whether it succeeded *)
  | ev_window_closed (k : string).   (* a webview window was closed *)

Inductive Result (A : Type) :=
  | resolved (a : A)
  | rejected (e : Error).
Arguments resolved {A} a.
Arguments rejected {A} e.

Record Out (A : Type) := mkOut {
  res : Result A;
  final : World;
  events : list Event
}.
Arguments mkOut {A} _ _ _.
Arguments res {A} _.
Arguments final {A} _.
Arguments events {A} _.

Definition M (A : Type) : Type := World → Out A.

Definition ret {A} (a : A) : M A := λ w, mkOut (resolved a) w [].

Definition bind {A B} (c : M A) (k : A → M B) : M B := λ w,
  let o := c w in
  match res o with
  | resolved a =>
      let o' := k a (final o) in
      mkOut (res o') (final o') (events o ++ events o')
  | rejected e => mkOut (rejected e) (final o) (events o)
  end.

Declare Scope async_scope.
Delimit Scope async_scope with async.
Bind Scope async_scope with M.
Notation "'let*' x ':=' c 'in' k" := (bind c (λ x, k))
  (at level 10, x binder, c at level 100, k at level 200) : async_scope.
Notation "c1 '>>' c2" := (bind c1 (λ _, c2))
  (at level 100, c2 at level 200, right associativity) : async_scope.
Open Scope async_scope.

(** [try { c } catch (error) { h }] *)
Definition try_catch {A} (c : M A) (h : Error → M A) : M A := λ w,
  let o := c w in
  match res o with
  | resolved a => o
  | rejected e =>
      let o' := h e (final o) in
      mkOut (res o') (final o') (events o ++ events o')
  end.

(** A promise that nobody awaits: the task runs, its outcome is dropped. *)
Definition spawn {A} (c : M A) : M unit := λ w,
  let o := c w in mkOut (resolved tt) (final o) (events o).

(** [Promise.all([p1, p2])] of two started promises: both run, the first
    rejection is the one reported. *)
Definition both (c1 c2 : M unit) : M unit := λ w,
  let o1 := c1 w in
  let o2 := c2 (final o1) in
  mkOut (match res o1 with
         | resolved _ => res o2
         | rejected e => rejected e
         end)
        (final o2) (events o1 ++ events o2).

Definition throw {A} (e : Error) : M A := λ w, mkOut (rejected e) w [].

Definition emit (e : Event) : M unit := λ w, mkOut (resolved tt) w [e].

(** zustand's [get()] and [set(partial)]. *)
Definition get : M QueueState := λ w, mkOut (resolved (store w)) w [].

Definition set (f : QueueState → QueueState) : M unit := λ w,
  let s := f (store w) in mkOut (resolved tt) (with_store s w) [ev_set s].

(** One call to the table: [run] is what the call does to the rows and
    what it answers. *)
Definition table_call {A} (c : DbCall) (run : DB → A * DB) : M A := λ w,
  match faults w with
  | true :: fs =>
      mkOut (rejected (store_rejected c)) (with_db (db w) fs w) [ev_db c false]
  | fs =>
      let (a, d) := run (db w) in
      mkOut (resolved a) (with_db d (tail fs) w) [ev_db c true]
  end.

(** ** utils/db.ts *)

Definition saveMessage (message : MessageType) : M unit := λ w,
  let storedMessage :=
    {| message := message;
       timestamp := now w;
       isRead := false;
       isShown := false;
       queueStatus := pending;
       queuePosition := 0 |} in
  table_call (call_put storedMessage)
             (λ d, (tt, Table.put storedMessage d)) w.

Definition getMessage (k : string) : M (option StoredMessage) :=
  table_call (call_get k) (λ d, (Table.get k d, d)).

(** [!!message] *)
Definition hasMessage (k : string) : M bool :=
  let* message := getMessage k in
  ret (bool_decide (is_Some message)).

Definition getPendingMessages : M (list StoredMessage) :=
  table_call (call_sortBy [pending])
    (λ d, (Table.sortBy_queuePosition
             (Table.where_queueStatus [pending] d), d)).

Definition table_update (k : string) (c : Changes) : M unit :=
  table_call (call_update k c) (λ d, (tt, Table.update k c d)).

(** The object [{ queueStatus: status }]. *)
Definition status_change (status : QueueStatus) : Changes :=
  {| set_queueStatus := Some status; set_isShown := None;
     set_queuePosition := None |}.

Definition updateQueueStatus (k : string) (status : QueueStatus) : M unit :=
  table_update k (status_change status).

Definition markAsShown (k : string) : M unit :=
  table_update k {| set_queueStatus := Some shown; set_isShown := Some true;
                    set_queuePosition := None |}.

Definition markAsHidden (k : string) : M unit :=
  table_update k {| set_queueStatus := Some hidden; set_isShown := None;
                    set_queuePosition := None |}.

Definition clearPendingMessages : M unit :=
  table_call (call_delete [pending; showing])
    (λ d, (tt, Table.delete_where [pending; showing] d)).

Definition position_change (position : Z) : Changes :=
  {| set_queueStatus := None; set_isShown := None;
     set_queuePosition := Some position |}.

(** [messages.map(update)] starts every update, in order; [Promise.all]
    reports the first rejection. *)
Fixpoint updateQueuePositions (messages : list (string * Z)) : M unit :=
  match messages with
  | [] => ret tt
  | msg :: rest =>
      both (table_update msg.1 (position_change msg.2))
           (updateQueuePositions rest)
  end.

(** ** stores/messageQueueStore.ts *)

Definition upd_queue (q : list MessageType) (s : QueueState) : QueueState :=
  {| queue := q; currentMessage := currentMessage s;
     isProcessing := isProcessing s; initialized := initialized s;
     activeWindowIds := activeWindowIds s |}.

Definition upd_currentMessage (c : option MessageType) (s : QueueState)
  : QueueState :=
  {| queue := queue s; currentMessage := c;
     isProcessing := isProcessing s; initialized := initialized s;
     activeWindowIds := activeWindowIds s |}.

Definition upd_isProcessing (b : bool) (s : QueueState) : QueueState :=
  {| queue := queue s; currentMessage := currentMessage s;
     isProcessing := b; initialized := initialized s;
     activeWindowIds := activeWindowIds s |}.

Definition upd_initialized (b : bool) (s : QueueState) : QueueState :=
  {| queue := queue s; currentMessage := currentMessage s;
     isProcessing := isProcessing s; initialized := b;
     activeWindowIds := activeWindowIds s |}.

Definition upd_activeWindowIds (l : list string) (s : QueueState)
  : QueueState :=
  {| queue := queue s; currentMessage := currentMessage s;
     isProcessing := isProcessing s; initialized := initialized s;
     activeWindowIds := l |}.

(** [state.queue.map((msg, index) => ({ id: msg.id, position: index }))] *)
Definition positions (q : list MessageType) : list (string * Z) :=
  imap (λ index msg, (id msg, Z.of_nat index)) q.

Definition persistQueue : M unit :=
  let* state := get in
  updateQueuePositions (positions (queue state)).

Definition dequeue : M (option MessageType) :=
  let* state := get in
  match queue state with
  | [] => ret None
  | nextMessage :: remainingQueue =>
      set (upd_queue remainingQueue) >>
      ret (Some nextMessage)
  end.

Definition showNext : M unit :=
  emit ev_showNext >>
  let* state := get in
  if isProcessing state then ret tt else
  let* nextMessage := dequeue in
  match nextMessage with
  | None =>
      set (λ s, upd_isProcessing false (upd_currentMessage None s))
  | Some nextMessage =>
      set (λ s, upd_currentMessage (Some nextMessage)
                  (upd_isProcessing true s)) >>
      updateQueueStatus (id nextMessage) showing >>
      persistQueue
  end.

Definition enqueue (message : MessageType) : M unit :=
  let* state := get in
  let* exists_ := hasMessage (id message) in
  (if negb exists_ then saveMessage message else ret tt) >>
  let alreadyInQueue :=
    existsb (λ m, bool_decide (id m = id message)) (queue state) in
  (if negb alreadyInQueue then
     let newQueue := queue state ++ [message] in
     set (upd_queue newQueue) >>
     persistQueue
   else ret tt) >>
  if negb (isProcessing state)
     && negb (bool_decide (is_Some (currentMessage state)))
  then showNext
  else ret tt.

(** [clearCurrent] is synchronous; the promise of [showNext] is dropped. *)
Definition clearCurrent : M unit :=
  set (λ s, upd_isProcessing false (upd_currentMessage None s)) >>
  let* state := get in
  if (0 <? length (queue state))%nat then spawn showNext else ret tt.

Definition setCurrentMessage (message : option MessageType) : M unit :=
  set (upd_currentMessage message).

Definition setIsProcessing (processing : bool) : M unit :=
  set (upd_isProcessing processing).

Definition setQueue (q : list MessageType) : M unit :=
  set (upd_queue q).

Definition initializeFromDatabase : M unit :=
  let* state := get in
  if initialized state then ret tt else
  set (upd_initialized true) >>
  let* pendingMessages := getPendingMessages in
  if (0 <? length pendingMessages)%nat then
    set (upd_queue (message <$> pendingMessages)) >>
    showNext
  else ret tt.

Definition clearOnLogout : M unit :=
  set (λ _, {| queue := []; currentMessage := None; isProcessing := false;
               activeWindowIds := []; initialized := false |}) >>
  clearPendingMessages.

Definition addActiveWindow (k : string) : M unit :=
  let* state := get in
  let normalizedId := k in
  if bool_decide (normalizedId ∈ activeWindowIds state) then ret tt
  else set (upd_activeWindowIds (activeWindowIds state ++ [normalizedId])).

Definition removeActiveWindow (k : string) : M unit :=
  let* state := get in
  let normalizedId := k in
  set (upd_activeWindowIds
         (filter (λ wid, wid ≠ normalizedId) (activeWindowIds state))).

Definition isWindowActive (k : string) : M bool :=
  let* state := get in
  let normalizedId := k in
  ret (bool_decide (normalizedId ∈ activeWindowIds state)).

(** ** utils/noticeWindow.ts *)

Definition getNoticeConfig : M NoticeConfig := λ w,
  mkOut (resolved (config w)) w [].

(** [await primaryMonitor()], then [monitor?.size]. *)
Definition primaryMonitor : M (option (float * float)) := λ w,
  match monitor w with
  | monitor_throws => throw monitor_failed w
  | monitor_null => ret None w
  | monitor_size width height => ret (Some (width, height)) w
  end.

Definition calculateWindowPosition (width height : float)
    (positionConfig : option WindowPosition) : M (float * float) :=
  let padding := default 20%float (positionConfig ≫= wp_padding) in
  match positionConfig ≫= wp_x, positionConfig ≫= wp_y with
  | Some x, Some y => ret (x, y)
  | _, _ =>
      let* screen :=
        try_catch
          (let* size := primaryMonitor in
           ret (default (1920%float, 1080%float) size))
          (λ _, ret (1920%float, 1080%float)) in
      let screenWidth := screen.1 in
      let screenHeight := screen.2 in
      let position := default right_bottom (positionConfig ≫= wp_position) in
      ret (match position with
           | right_bottom =>
               (screenWidth - width - padding, screenHeight - height - padding)
           | right_top =>
               (screenWidth - width - padding, padding)
           | left_bottom =>
               (padding, screenHeight - height - padding)
           | left_top =>
               (padding, padding)
           | center =>
               ((screenWidth - width) / 2, (screenHeight - height) / 2)
           end)%float
  end.

(** [a || b] on an optional number: [undefined], [0], [-0] and [NaN] are
    falsy. *)
Definition js_or (a : option float) (b : float) : float :=
  match a with
  | Some v => if (v =? 0)%float || is_nan v then b else v
  | None => b
  end.

(** [new WebviewWindow(label, options)].  [webviewThrows] stands for an
    exception thrown inside the [try] block, as outside a Tauri runtime.
    Within Tauri the constructor returns and a window that could not be
    opened is reported later by a [tauri://error] event, to which the code
    does not listen: such a run is the one with [webviewThrows = false]. *)
Definition newWebviewWindow (options : Webview) : M Webview := λ w,
  if webviewThrows w then throw webview_failed w else ret options w.

Definition activeWindows_get (k : string) : M (option Webview) := λ w,
  mkOut (resolved (activeWindows w !! k)) w [].

Definition activeWindows_set (k : string) (v : Webview) : M unit := λ w,
  mkOut (resolved tt) (with_windows (<[k := v]> (activeWindows w)) w) [].

Definition activeWindows_delete (k : string) : M unit := λ w,
  mkOut (resolved tt) (with_windows (delete k (activeWindows w)) w) [].

(** The listener [createNoticeWindow] registers with
    [noticeWindow.once('tauri://destroyed', ...)]. *)
Definition on_destroyed (normalizedId : string) : M unit :=
  activeWindows_delete normalizedId >>
  removeActiveWindow normalizedId >>
  markAsShown normalizedId >>
  clearCurrent.

Definition createNoticeWindow (message : MessageType) : M unit :=
  let normalizedId := id message in
  let* active := isWindowActive normalizedId in
  if active then ret tt else
  let* config := getNoticeConfig in
  let windowLabel := "notice-" +:+ normalizedId in
  let windowUrl :=
    routePrefix config +:+ "/" +:+ type message +:+ "?id=" +:+ id message in
  let width := js_or (min_width message) (defaultWidth config) in
  let height := js_or (min_height message) (defaultHeight config) in
  let* xy := calculateWindowPosition width height (windowPosition message) in
  try_catch
    (let* noticeWindow :=
       newWebviewWindow
         {| win_label := windowLabel; win_url := windowUrl;
            win_title := title message;
            win_width := width; win_height := height;
            win_x := xy.1; win_y := xy.2 |} in
     activeWindows_set normalizedId noticeWindow >>
     addActiveWindow normalizedId)
    (λ _, removeActiveWindow normalizedId >> clearCurrent).

(** A [window.close()] that succeeds: the window goes away and its
    [tauri://destroyed] listener runs; nobody awaits the listener. *)
Definition window_close (k : string) : M unit :=
  emit (ev_window_closed k) >>
  spawn (on_destroyed k).

(** [await window.close()]: the call may reject, and then the window is
    still there and no listener has run. *)
Definition window_close_call (k : string) : M unit := λ w,
  if closeRejects w then throw close_failed w else window_close k w.

Definition closeNoticeWindow (messageId : string) : M unit :=
  let normalizedId := messageId in
  let* window := activeWindows_get normalizedId in
  match window with
  | Some _ =>
      try_catch
        (window_close_call normalizedId >>
         activeWindows_delete normalizedId)
        (λ _, ret tt)
  | None => ret tt
  end.

(** ** hooks/useHideNotice.ts

    [store] is the state object [useMessageQueueStore()] returned when the
    component rendered; [hideNotice] closes over it. *)
Definition hideNotice (store : QueueState) (messageId : string) : M unit :=
  markAsHidden messageId >>
  closeNoticeWindow messageId >>
  if bool_decide (id <$> currentMessage store = Some messageId)
  then clearCurrent
  else ret tt.

Definition useHideNotice : M (string → M unit) :=
  let* store := get in
  ret (hideNotice store).

(** ** Notions used in the statements *)

(** Rows that differ at most in [queuePosition]. *)
Definition same_but_position (r r' : StoredMessage) : Prop :=
  message r' = message r ∧ timestamp r' = timestamp r ∧
  isRead r' = isRead r ∧ isShown r' = isShown r ∧
  queueStatus r' = queueStatus r.

(** What a batch of position updates does to the rows. *)
Definition bulk_positions (ps : list (string * Z)) (d : DB) : DB :=
  foldl (λ d p, Table.update p.1 (position_change p.2) d) d ps.

(** The event a successful position update leaves. *)
Definition position_event (p : string * Z) : Event :=
  ev_db (call_update p.1 (position_change p.2)) true.

(** ** Sample data for the closed instances below *)

Definition sample (k : string) : MessageType :=
  {| id := k; title := "Notice"; type := "announcement"; data := "{}";
     min_width := None; min_height := None; windowPosition := None |}.

Definition sample_row (k : string) (status : QueueStatus) (position : Z)
  : StoredMessage :=
  {| message := sample k; timestamp := "2024-01-01T00:00:00.000Z";
     isRead := false; isShown := false;
     queueStatus := status; queuePosition := position |}.

(** A fresh context over the table [d]: nothing shown, nothing queued. *)
Definition fresh_world (d : DB) (fs : list bool) : World :=
  {| store := initialState; db := d; faults := fs;
     now := "2024-06-01T12:00:00.000Z"; activeWindows := ∅;
     config := defaultConfig; monitor := monitor_null;
     webviewThrows := false; closeRejects := false |}.

(** An idle context with [a] and [b] queued and stored. *)
Definition idle_two : World :=
  with_store (upd_queue [sample "a"; sample "b"] initialState)
    (fresh_world (Table.put (sample_row "a" pending 0)
                    (Table.put (sample_row "b" pending 0) ∅)) []).

(** A table with one row of each status. *)
Definition mixed_table : DB :=
  Table.put (sample_row "p" pending 0)
    (Table.put (sample_row "s" showing 0)
       (Table.put (sample_row "d" shown 0)
          (Table.put (sample_row "h" hidden 0) ∅))).

(** ** Error reporting *)

(** The first table call of a run that was rejected. *)
Fixpoint first_rejection (evs : list Event) : option DbCall :=
  match evs with
  | [] => None
  | ev_db c false :: _ => Some c
  | _ :: evs => first_rejection evs
  end.

(** [c] reports exactly the first rejection of a table call it makes, and
    resolves when there is none. *)
Definition reports_rejections {A} (c : M A) : Prop :=
  ∀ w, match first_rejection (events (c w)) with
       | Some call => res (c w) = rejected (store_rejected call)
       | None => ∃ a, res (c w) = resolved a
       end.

(** An idle context with [a] queued whose next table call is rejected. *)
Definition one_queued_failing : World :=
  with_store (upd_queue [sample "a"] initialState)
    (fresh_world (Table.put (sample_row "a" pending 0) ∅) [true]).

(** ** Sequences of operations *)

(** The public queue operations. *)
Inductive Op :=
  | op_enqueue (message : MessageType)
  | op_showNext
  | op_clearCurrent
  | op_initializeFromDatabase
  | op_clearOnLogout
  | op_setCurrentMessage (message : option MessageType)
  | op_setIsProcessing (processing : bool).

Definition run_op (o : Op) : M unit :=
  match o with
  | op_enqueue message => enqueue message
  | op_showNext => showNext
  | op_clearCurrent => clearCurrent
  | op_initializeFromDatabase => initializeFromDatabase
  | op_clearOnLogout => clearOnLogout
  | op_setCurrentMessage message => setCurrentMessage message
  | op_setIsProcessing processing => setIsProcessing processing
  end.

(** The world at the boundary after each operation; a rejected operation
    leaves the world it reached. *)
Definition run_ops (ops : list Op) (w : World) : World :=
  foldl (λ w o, final (run_op o w)) w ops.

Definition raw_setter (o : Op) : bool :=
  match o with
  | op_setCurrentMessage _ | op_setIsProcessing _ => true
  | _ => false
  end.

(** [isProcessing] is true exactly when there is a current message. *)
Definition busy_iff_current (s : QueueState) : Prop :=
  isProcessing s = true ↔ currentMessage s ≠ None.

(** ** Invariants *)

(** [c] keeps the invariant [I] of the world, whether it resolves or not. *)
Definition preserves {A} (I : World → Prop) (c : M A) : Prop :=
  ∀ w, I w → I (final (c w)).

(** A property of the rows alone, and a property of the store state alone. *)
Definition on_rows (P : DB → Prop) (w : World) : Prop := P (db w).
Definition on_store (P : QueueState → Prop) (w : World) : Prop := P (store w).

(** The row under [k] is [r] up to [queuePosition], with a status [S]
    allows. *)
Definition row_kept (k : string) (r : StoredMessage)
    (S : QueueStatus → Prop) (d : DB) : Prop :=
  ∃ r', d !! k = Some r' ∧ message r' = message r ∧
        timestamp r' = timestamp r ∧ isRead r' = isRead r ∧
        isShown r' = isShown r ∧ S (queueStatus r').

(** ** Summaries of the runs without rejected calls *)

(** The row [saveMessage] writes at time [n]. *)
Definition new_row (m : MessageType) (n : string) : StoredMessage :=
  {| message := m; timestamp := n; isRead := false; isShown := false;
     queueStatus := pending; queuePosition := 0 |}.

(** What [showNext] makes of the store state and the rows when no table
    call is rejected. *)
Definition shown_next (s : QueueState) (d : DB) : QueueState * DB :=
  if isProcessing s then (s, d) else
  match queue s with
  | [] => (upd_isProcessing false (upd_currentMessage None s), d)
  | m :: rest =>
      (upd_currentMessage (Some m) (upd_isProcessing true (upd_queue rest s)),
       bulk_positions (positions rest)
         (Table.update (id m) (status_change showing) d))
  end.

(** [!state.isProcessing && !state.currentMessage] *)
Definition idle (s : QueueState) : bool :=
  negb (isProcessing s) && negb (bool_decide (is_Some (currentMessage s))).

Definition in_queue (m : MessageType) (s : QueueState) : bool :=
  existsb (λ x, bool_decide (id x = id m)) (queue s).

(** What [enqueue message] makes of them, at time [n]. *)
Definition enqueued (m : MessageType) (n : string) (s : QueueState) (d : DB)
  : QueueState * DB :=
  let d1 := if bool_decide (is_Some (d !! id m)) then d
            else Table.put (new_row m n) d in
  let s2 := if in_queue m s then s else upd_queue (queue s ++ [m]) s in
  let d2 := if in_queue m s then d1
            else bulk_positions (positions (queue s ++ [m])) d1 in
  if idle s then shown_next s2 d2 else (s2, d2).

(** ** Restart *)

(** A restart: a fresh queue state and no window, over the same table. *)
Definition reopen (w : World) : World :=
  with_windows ∅ (with_store initialState w).

(** [enqueue m1], [enqueue m2], restart, [initializeFromDatabase]. *)
Definition restart_scenario (m1 m2 : MessageType) (w : World) : World :=
  let w1 := final (enqueue m1 w) in
  let w2 := final (enqueue m2 w1) in
  final (initializeFromDatabase (reopen w2)).

(** The row [r] with another status. *)
Definition set_status (status : QueueStatus) (r : StoredMessage)
  : StoredMessage :=
  apply_changes (status_change status) r.

(** The store state and the rows after [enqueue m1] on a fresh context with
    an empty table, and the rows after the [enqueue m2] that follows. *)
Definition first_shown (m1 : MessageType) : QueueState :=
  {| queue := []; currentMessage := Some m1; isProcessing := true;
     initialized := false; activeWindowIds := [] |}.

Definition rows_after_first (m1 : MessageType) (n : string) : DB :=
  {[ id m1 := set_status showing (new_row m1 n) ]}.

Definition rows_after_second (m1 m2 : MessageType) (n : string) : DB :=
  <[ id m2 := new_row m2 n ]> (rows_after_first m1 n).

(** ** Counting duplicates *)

(** The number of queue entries with id [k]. *)
Definition count_id (k : string) (q : list MessageType) : nat :=
  length (filter (λ x, id x = k) q).

(** A busy context whose queue holds [a] twice. *)
Definition doubled : World :=
  with_store
    {| queue := [sample "a"; sample "a"];
       currentMessage := Some (sample "b"); isProcessing := true;
       initialized := true; activeWindowIds := [] |}
    (fresh_world (Table.put (sample_row "a" pending 0)
                    (Table.put (sample_row "b" showing 0) ∅)) []).

(** A fresh idle context whose table already holds [a], shown earlier. *)
Definition shown_before : World :=
  fresh_world (Table.put (sample_row "a" shown 0) ∅) [].

(** ** Window geometry, in the words of the specification *)

(** The display area: the primary monitor's size, or 1920 x 1080 when
    [primaryMonitor()] throws or answers [null]. *)
Definition screen_size (mo : MonitorQuery) : float * float :=
  match mo with
  | monitor_size width height => (width, height)
  | monitor_throws | monitor_null => (1920%float, 1080%float)
  end.

(** The corner or centre position of a [w] x [h] window on a [W] x [H]
    screen with padding [p]; an absent preset is [right-bottom]. *)
Definition preset_position (W H w h p : float) (preset : option PositionPreset)
  : float * float :=
  match preset with
  | None | Some right_bottom => (W - w - p, H - h - p)
  | Some right_top => (W - w - p, p)
  | Some left_bottom => (p, H - h - p)
  | Some left_top => (p, p)
  | Some center => ((W - w) / 2, (H - h) / 2)
  end%float.

(** The position the specification describes. *)
Definition expected_position (w h : float) (positionConfig : option WindowPosition)
    (mo : MonitorQuery) : float * float :=
  match positionConfig ≫= wp_x, positionConfig ≫= wp_y with
  | Some x, Some y => (x, y)
  | _, _ =>
      preset_position (screen_size mo).1 (screen_size mo).2 w h
        (default 20%float (positionConfig ≫= wp_padding))
        (positionConfig ≫= wp_position)
  end.

(** A message asking for a zero minimum width. *)
Definition zero_width : MessageType :=
  {| id := "z"; title := "Notice"; type := "announcement"; data := "{}";
     min_width := Some 0%float; min_height := Some 120%float;
     windowPosition := None |}.

(** ** Hiding the message on display *)

(** [m1] is showing in its window and [m2] waits in the queue: the state
    after [enqueue m1], the subscriber's [createNoticeWindow m1] and
    [enqueue m2], from a fresh context with an empty table. *)
Definition showing_m1 : World :=
  let w1 := final (enqueue (sample "m1") (fresh_world ∅ [])) in
  let w2 := final (createNoticeWindow (sample "m1") w1) in
  final (enqueue (sample "m2") w2).

(** [hideNotice("m1")] called from a component that rendered that state. *)
Definition after_hide : World :=
  final (hideNotice (store showing_m1) "m1" showing_m1).

(** ** Further definitions *)

(** Ascending [queuePosition]. *)
Definition by_position (a b : StoredMessage) : Prop :=
  queuePosition a ≤ queuePosition b.

(** The store state [showNext] leaves; the table plays no part in it. *)
Definition next_state (s : QueueState) : QueueState :=
  if isProcessing s then s else
  match queue s with
  | [] => upd_isProcessing false (upd_currentMessage None s)
  | m :: rest =>
      upd_currentMessage (Some m) (upd_isProcessing true (upd_queue rest s))
  end.

(** The state [clearCurrent] starts from. *)
Definition cleared (s : QueueState) : QueueState :=
  upd_isProcessing false (upd_currentMessage None s).

(** Nothing queued, nothing shown. *)
Definition at_rest (s : QueueState) : Prop :=
  queue s = [] ∧ currentMessage s = None ∧ isProcessing s = false.

(** Every row is stored under its own id: [id] is the table's primary key
    path. *)
Definition keyed (d : DB) : Prop :=
  ∀ (k : string) (r : StoredMessage), d !! k = Some r → id r = k.

(** No id is queued twice, over a table keyed by id. *)
Definition queue_sound (w : World) : Prop :=
  NoDup (id <$> queue (store w)) ∧ keyed (db w).

(** The object [{ queueStatus: 'shown', isShown: true }] of [markAsShown]. *)
Definition shown_change : Changes :=
  {| set_queueStatus := Some shown; set_isShown := Some true;
     set_queuePosition := None |}.

(** hooks/useCloseNotice.ts: [currentMessage] is the value the selector
    gave when the component rendered. *)
Definition closeNotice (currentMessage : option MessageType) : M unit :=
  match currentMessage with
  | Some message => closeNoticeWindow (id message)
  | None => ret tt
  end.

(** The window [createNoticeWindow] opens for [message]. *)
Definition notice_window (message : MessageType) (w : World) : Webview :=
  let width := js_or (min_width message) (defaultWidth (config w)) in
  let height := js_or (min_height message) (defaultHeight (config w)) in
  let xy := expected_position width height (windowPosition message)
              (monitor w) in
  {| win_label := "notice-" +:+ id message;
     win_url := routePrefix (config w) +:+ "/" +:+ type message
                +:+ "?id=" +:+ id message;
     win_title := title message;
     win_width := width; win_height := height;
     win_x := xy.1; win_y := xy.2 |}.

(** ** config/noticeConfig.ts

    [Partial<NoticeConfig>]: an absent key is [None]. *)
Record PartialConfig := mkPartialConfig {
  p_routePrefix : option string;
  p_databaseName : option string;
  p_defaultWidth : option float;
  p_defaultHeight : option float
}.

(** [{ ...config, ...newConfig }] *)
Definition merge_config (config : NoticeConfig) (newConfig : PartialConfig)
  : NoticeConfig :=
  {| routePrefix := default (routePrefix config) (p_routePrefix newConfig);
     databaseName := default (databaseName config) (p_databaseName newConfig);
     defaultWidth := default (defaultWidth config) (p_defaultWidth newConfig);
     defaultHeight :=
       default (defaultHeight config) (p_defaultHeight newConfig) |}.

Definition with_config (c : NoticeConfig) (w : World) : World :=
  {| store := store w; db := db w; faults := faults w; now := now w;
     activeWindows := activeWindows w; config := c;
     monitor := monitor w; webviewThrows := webviewThrows w;
     closeRejects := closeRejects w |}.

Definition setNoticeConfig (newConfig : PartialConfig) : M unit := λ w,
  mkOut (resolved tt) (with_config (merge_config (config w) newConfig) w) [].

(** ** components/NoticeLayout.tsx

    The three [useState] cells of the component. *)
Record LayoutState := mkLayout {
  ls_message : option MessageType;
  ls_loading : bool;
  ls_error : option string
}.

Definition initialLayout : LayoutState :=
  {| ls_message := None; ls_loading := true; ls_error := None |}.

Definition setMessage (m : option MessageType) (st : LayoutState)
  : LayoutState :=
  {| ls_message := m; ls_loading := ls_loading st; ls_error := ls_error st |}.

Definition setLoading (b : bool) (st : LayoutState) : LayoutState :=
  {| ls_message := ls_message st; ls_loading := b; ls_error := ls_error st |}.

Definition setError (e : option string) (st : LayoutState) : LayoutState :=
  {| ls_message := ls_message st; ls_loading := ls_loading st; ls_error := e |}.

(** [loadMessage] of the effect.  [messageId] is [urlParams.get('id')];
    [null] and the empty string are falsy.  The [try] block is cut in two
    at [setMessage]: an exception before it is handled on the state the
    effect started with, an exception of [onLoad] on the state that holds
    the message, as the single [catch] of the source does. *)
Definition loadMessage (messageId : option string)
    (onLoad : option (MessageType → M unit)) (st : LayoutState)
  : M LayoutState :=
  let failed st := setLoading false (setError (Some "Failed to load message") st) in
  match messageId with
  | None | Some "" =>
      ret (setLoading false (setError (Some "No message ID provided") st))
  | Some messageId =>
      try_catch
        (let* storedMessage := getMessage messageId in
         match storedMessage with
         | None =>
             ret (setLoading false (setError (Some "Message not found") st))
         | Some storedMessage =>
             let st' := setLoading false
                          (setMessage (Some (message storedMessage)) st) in
             match onLoad with
             | Some f =>
                 try_catch (f storedMessage >> ret st') (λ _, ret (failed st'))
             | None => ret st'
             end
         end)
        (λ _, ret (failed st))
  end.

(** What the component renders. *)
Inductive LayoutView :=
  | view_loading
  | view_error (text : string)
  | view_children (message : MessageType).

Definition render (st : LayoutState) : LayoutView :=
  if ls_loading st then view_loading else
  match ls_error st, ls_message st with
  | Some e, Some m =>
      if bool_decide (e = "") then view_children m else view_error e
  | Some e, None =>
      view_error (if bool_decide (e = "") then "Message not found" else e)
  | None, Some m => view_children m
  | None, None => view_error "Message not found"
  end.

(** * Verification *)

(** ** The model on small inputs *)

(** Pending rows come back by position, ties in primary-key order. *)
Example sortBy_ties_by_key :
  (λ r : StoredMessage, id r) <$>
    Table.sortBy_queuePosition
      (Table.put (sample_row "b" pending 1)
         (Table.put (sample_row "a" pending 1)
            (Table.put (sample_row "c" pending 0) ∅)))
  = ["c"; "a"; "b"].
Proof. vm_compute. reflexivity. Qed.

(** Three messages enqueued on an idle context are shown in order as each
    one is cleared. *)
Example fifo :
  let w1 := final (enqueue (sample "m1") (fresh_world ∅ [])) in
  let w2 := final (enqueue (sample "m2") w1) in
  let w3 := final (enqueue (sample "m3") w2) in
  let w4 := final (clearCurrent w3) in
  let w5 := final (clearCurrent w4) in
  (currentMessage (store w3), currentMessage (store w4),
   currentMessage (store w5)) =
  (Some (sample "m1"), Some (sample "m2"), Some (sample "m3")).
Proof. vm_compute. reflexivity. Qed.

(** ** The table *)

Section table_lemmas.
Implicit Types (d : DB) (k : string) (r : StoredMessage) (c : Changes).

Lemma update_lookup_eq k c d r :
  d !! k = Some r → Table.update k c d !! k = Some (apply_changes c r).
Proof. intros H. unfold Table.update. by rewrite lookup_alter_eq, H. Qed.

Lemma update_lookup_ne k k' c d :
  k ≠ k' → Table.update k c d !! k' = d !! k'.
Proof. intros H. unfold Table.update. by rewrite lookup_alter_ne. Qed.

Lemma update_lookup_None k k' c d :
  d !! k' = None → Table.update k c d !! k' = None.
Proof.
  intros H. unfold Table.update. destruct (decide (k = k')) as [->|].
  - by rewrite lookup_alter_eq, H.
  - by rewrite lookup_alter_ne.
Qed.

Lemma bulk_positions_cons k0 p0 ps d :
  bulk_positions ((k0, p0) :: ps) d =
  bulk_positions ps (Table.update k0 (position_change p0) d).
Proof. reflexivity. Qed.

Lemma bulk_lookup_notin ps d k :
  k ∉ ps.*1 → bulk_positions ps d !! k = d !! k.
Proof.
  revert d. induction ps as [|[k0 p0] ps IH]; intros d Hk; [done|].
  rewrite fmap_cons in Hk. apply not_elem_of_cons in Hk as [Hne Hk].
  rewrite bulk_positions_cons, IH by done. by apply update_lookup_ne.
Qed.

Lemma bulk_lookup_frame ps d k r :
  d !! k = Some r →
  ∃ r', bulk_positions ps d !! k = Some r' ∧ same_but_position r r'.
Proof.
  revert d r. induction ps as [|[k0 p0] ps IH]; intros d r Hr.
  - exists r. by repeat split.
  - rewrite bulk_positions_cons. destruct (decide (k0 = k)) as [->|Hne].
    + destruct (IH (Table.update k (position_change p0) d)
                   (apply_changes (position_change p0) r)) as (r' & Hr' & H).
      { by apply update_lookup_eq. }
      exists r'. split; [done|]. destruct H as (?&?&?&?&?).
      repeat split; by etrans.
    + apply IH. by rewrite update_lookup_ne.
Qed.

Lemma bulk_lookup_None ps d k :
  d !! k = None → bulk_positions ps d !! k = None.
Proof.
  revert d. induction ps as [|[k0 p0] ps IH]; intros d Hr; [done|].
  rewrite bulk_positions_cons. apply IH. by apply update_lookup_None.
Qed.

Lemma bulk_lookup_position ps d k p r :
  NoDup ps.*1 → (k, p) ∈ ps → d !! k = Some r →
  ∃ r', bulk_positions ps d !! k = Some r' ∧ queuePosition r' = p.
Proof.
  revert d r. induction ps as [|[k0 p0] ps IH]; intros d r Hnd Hin Hr.
  - by apply elem_of_nil in Hin.
  - rewrite fmap_cons in Hnd. rewrite bulk_positions_cons.
    apply NoDup_cons in Hnd as [Hk0 Hnd]. cbn in Hk0.
    apply elem_of_cons in Hin as [[= -> ->]|Hin].
    + rewrite bulk_lookup_notin by done.
      erewrite update_lookup_eq by done. eauto.
    + assert (k0 ≠ k) as Hne.
      { intros ->. apply Hk0. apply list_elem_of_fmap. by exists (k, p). }
      eapply IH; [done..|]. by rewrite update_lookup_ne.
Qed.


Lemma positions_keys (q : list MessageType) : (positions q).*1 = id <$> q.
Proof. unfold positions. rewrite fmap_imap. apply (imap_const id). Qed.

Lemma positions_elem (q : list MessageType) i x :
  q !! i = Some x → (id x, Z.of_nat i) ∈ positions q.
Proof.
  intros H. apply list_elem_of_lookup. exists i.
  unfold positions. by rewrite list_lookup_imap, H.
Qed.
End table_lemmas.

(** ** Running the table calls when no call is scripted to fail *)

Section reliable.
Variables (s : QueueState) (d : DB) (n : string)
          (a : gmap string Webview) (c : NoticeConfig)
          (mo : MonitorQuery) (wt cr : bool).

Lemma table_call_reliable {A} (call : DbCall) (run : DB → A * DB) :
  table_call call run (mkWorld s d [] n a c mo wt cr) =
  mkOut (resolved (run d).1) (mkWorld s (run d).2 [] n a c mo wt cr)
        [ev_db call true].
Proof. unfold table_call. cbn. by destruct (run d). Qed.

Lemma table_update_reliable k ch :
  table_update k ch (mkWorld s d [] n a c mo wt cr) =
  mkOut (resolved tt) (mkWorld s (Table.update k ch d) [] n a c mo wt cr)
        [ev_db (call_update k ch) true].
Proof. reflexivity. Qed.
End reliable.

Lemma updateQueuePositions_reliable ps s d n a c mo wt cr :
  updateQueuePositions ps (mkWorld s d [] n a c mo wt cr) =
  mkOut (resolved tt) (mkWorld s (bulk_positions ps d) [] n a c mo wt cr)
        (position_event <$> ps).
Proof.
  revert d. induction ps as [|[k0 p0] ps IH]; intros d; [done|].
  cbn [updateQueuePositions]. unfold both.
  rewrite table_update_reliable. cbn [res final events fst snd].
  rewrite IH. reflexivity.
Qed.

Lemma persistQueue_reliable s d n a c mo wt cr :
  persistQueue (mkWorld s d [] n a c mo wt cr) =
  mkOut (resolved tt)
        (mkWorld s (bulk_positions (positions (queue s)) d) [] n a c mo wt cr)
        (position_event <$> positions (queue s)).
Proof.
  unfold persistQueue, bind, get. cbn [res final events store].
  by rewrite updateQueuePositions_reliable.
Qed.

(** ** showNext *)

#[local] Arguments persistQueue : simpl never.
#[local] Arguments showNext : simpl never.
#[local] Arguments updateQueuePositions : simpl never.

Lemma showNext_busy w :
  isProcessing (store w) = true →
  showNext w = mkOut (resolved tt) w [ev_showNext].
Proof.
  intros Hp. unfold showNext, bind, emit, get. cbn. by rewrite Hp.
Qed.

Lemma showNext_empty w :
  isProcessing (store w) = false → queue (store w) = [] →
  showNext w =
  mkOut (resolved tt)
    (with_store (upd_isProcessing false (upd_currentMessage None (store w))) w)
    [ev_showNext;
     ev_set (upd_isProcessing false (upd_currentMessage None (store w)))].
Proof.
  intros Hp Hq. unfold showNext, dequeue, bind, emit, get. cbn.
  rewrite Hp. cbn. by rewrite Hq.
Qed.

Lemma showNext_reliable s d n a c mo wt cr m rest :
  isProcessing s = false → queue s = m :: rest →
  let s' := upd_currentMessage (Some m)
              (upd_isProcessing true (upd_queue rest s)) in
  showNext (mkWorld s d [] n a c mo wt cr) =
  mkOut (resolved tt)
    (mkWorld s'
       (bulk_positions (positions rest)
          (Table.update (id m) (status_change showing) d))
       [] n a c mo wt cr)
    (ev_showNext :: ev_set (upd_queue rest s) :: ev_set s'
       :: ev_db (call_update (id m) (status_change showing)) true
       :: (position_event <$> positions rest)).
Proof.
  intros Hp Hq s'. unfold showNext, dequeue, bind, emit, get. cbn.
  rewrite Hp. cbn. rewrite Hq. cbn.
  unfold with_store, with_db. cbn. rewrite persistQueue_reliable. reflexivity.
Qed.

(** C1. [showNext] does nothing while [isProcessing] is set.  Otherwise, on
    an empty queue it sets [isProcessing = false] and [currentMessage = null]
    and leaves the table alone; on a queue [m :: rest] it makes [rest] the
    queue, [m] the current message and sets [isProcessing]; it then issues
    the update [{queueStatus: 'showing'}] for [m] followed by one position
    update per remaining message, the position being its array index.  The
    stored row of [m] ends up [showing], and when the remaining ids are
    distinct every stored row of a remaining message holds its index. *)
Theorem showNext_spec (w : World) (Hf : faults w = []) :
  let o := showNext w in
  res o = resolved tt ∧
  (isProcessing (store w) = true → final o = w) ∧
  (isProcessing (store w) = false → queue (store w) = [] →
     store (final o) =
       upd_isProcessing false (upd_currentMessage None (store w)) ∧
     db (final o) = db w) ∧
  (∀ m rest,
     isProcessing (store w) = false → queue (store w) = m :: rest →
     store (final o) =
       upd_currentMessage (Some m)
         (upd_isProcessing true (upd_queue rest (store w))) ∧
     events o =
       ev_showNext
         :: ev_set (upd_queue rest (store w))
         :: ev_set (upd_currentMessage (Some m)
                      (upd_isProcessing true (upd_queue rest (store w))))
         :: ev_db (call_update (id m) (status_change showing)) true
         :: imap (λ i x, ev_db (call_update (id x)
                                  (position_change (Z.of_nat i))) true) rest ∧
     (∀ r, db w !! id m = Some r →
        ∃ r', db (final o) !! id m = Some r' ∧ queueStatus r' = showing) ∧
     (NoDup (id <$> rest) → ∀ i x r,
        rest !! i = Some x → db w !! id x = Some r →
        ∃ r', db (final o) !! id x = Some r' ∧ queuePosition r' = Z.of_nat i)).
Proof.
  destruct w as [s d fs n a c mo wt cr]; cbn in Hf; subst fs. cbn zeta.
  destruct (isProcessing s) eqn:Hp.
  - rewrite showNext_busy by done. cbn.
    split; [done|]. split; [done|]. split; intros; congruence.
  - destruct (queue s) as [|m rest] eqn:Hq.
    + rewrite showNext_empty by done. cbn.
      split; [done|]. split; [congruence|]. split; [done|]. intros; congruence.
    + rewrite (showNext_reliable _ _ _ _ _ _ _ _ m rest) by done. cbn.
      split; [done|]. split; [congruence|]. split; [congruence|].
      intros m' rest' _ Hq'. rewrite Hq in Hq'. injection Hq' as <- <-.
      split; [done|]. split; [|split].
      * unfold positions. by rewrite fmap_imap.
      * intros r Hr.
        destruct (bulk_lookup_frame (positions rest)
                    (Table.update (id m) (status_change showing) d) (id m)
                    (apply_changes (status_change showing) r)) as (r' & Hr' & H).
        { by apply update_lookup_eq. }
        exists r'. split; [done|]. by destruct H as (_&_&_&_&->).
      * intros Hnd i x r Hi Hr.
        destruct (decide (id m = id x)) as [He|Hne].
        -- eapply bulk_lookup_position.
           ++ by rewrite positions_keys.
           ++ by apply positions_elem.
           ++ rewrite He. apply update_lookup_eq. done.
        -- eapply bulk_lookup_position.
           ++ by rewrite positions_keys.
           ++ by apply positions_elem.
           ++ by rewrite update_lookup_ne.
Qed.

Lemma showNext_spec_witness :
  faults idle_two = [] ∧
  currentMessage (store (final (showNext idle_two))) = Some (sample "a").
Proof.
  split; [reflexivity|].
  destruct (showNext_spec idle_two eq_refl) as (_ & _ & _ & H).
  destruct (H (sample "a") [sample "b"] eq_refl eq_refl) as (-> & _).
  reflexivity.
Defined.

(** ** Rejected table calls *)

Lemma first_rejection_app evs evs' :
  first_rejection (evs ++ evs') =
  match first_rejection evs with
  | Some c => Some c
  | None => first_rejection evs'
  end.
Proof.
  induction evs as [|e evs IH]; [done|].
  destruct e as [| |c [|]|]; cbn; try done.
Qed.

Lemma reports_ret {A} (a : A) : reports_rejections (ret a).
Proof. intros w. cbn. eauto. Qed.

Lemma reports_get : reports_rejections get.
Proof. intros w. cbn. eauto. Qed.

Lemma reports_set f : reports_rejections (set f).
Proof. intros w. cbn. eauto. Qed.

Lemma reports_emit_showNext : reports_rejections (emit ev_showNext).
Proof. intros w. cbn. eauto. Qed.

Lemma reports_table_call {A} call (run : DB → A * DB) :
  reports_rejections (table_call call run).
Proof.
  intros w. unfold table_call.
  destruct (faults w) as [|[|] fs]; [| done |];
    destruct (run (db w)); cbn; eauto.
Qed.

Lemma reports_bind {A B} (c : M A) (k : A → M B) :
  reports_rejections c → (∀ a, reports_rejections (k a)) →
  reports_rejections (bind c k).
Proof.
  intros Hc Hk w. unfold bind. specialize (Hc w).
  destruct (first_rejection (events (c w))) as [call|] eqn:Hfirst.
  - rewrite Hc. cbn. by rewrite Hfirst.
  - destruct Hc as [a ->]. cbn. rewrite first_rejection_app, Hfirst.
    apply Hk.
Qed.

Lemma reports_both (c1 c2 : M unit) :
  reports_rejections c1 → reports_rejections c2 →
  reports_rejections (both c1 c2).
Proof.
  intros H1 H2 w. unfold both. cbn. rewrite first_rejection_app.
  specialize (H1 w).
  destruct (first_rejection (events (c1 w))) as [call|].
  - by rewrite H1.
  - destruct H1 as [[] ->]. apply H2.
Qed.

Lemma reports_updateQueuePositions ps :
  reports_rejections (updateQueuePositions ps).
Proof.
  induction ps as [|p ps IH]; [apply reports_ret|].
  apply reports_both; [apply reports_table_call | apply IH].
Qed.

Lemma reports_persistQueue : reports_rejections persistQueue.
Proof.
  apply reports_bind; [apply reports_get|].
  intros st. apply reports_updateQueuePositions.
Qed.

Lemma reports_showNext : reports_rejections showNext.
Proof.
  apply reports_bind; [apply reports_emit_showNext|intros _].
  apply reports_bind; [apply reports_get|intros st].
  destruct (isProcessing st); [apply reports_ret|].
  apply reports_bind.
  { apply reports_bind; [apply reports_get|intros st'].
    destruct (queue st'); [apply reports_ret|].
    apply reports_bind; [apply reports_set|intros _; apply reports_ret]. }
  intros [m|]; [|apply reports_set].
  apply reports_bind; [apply reports_set|intros _].
  apply reports_bind; [apply reports_table_call|intros _].
  apply reports_persistQueue.
Qed.

Lemma reports_saveMessage m : reports_rejections (saveMessage m).
Proof. intros w. unfold saveMessage. apply reports_table_call. Qed.

Lemma reports_enqueue m : reports_rejections (enqueue m).
Proof.
  apply reports_bind; [apply reports_get|intros st].
  apply reports_bind.
  { apply reports_bind; [apply reports_table_call|intros ?; apply reports_ret]. }
  intros ex. apply reports_bind.
  { destruct (negb ex); [apply reports_saveMessage|apply reports_ret]. }
  intros _. apply reports_bind.
  { destruct (negb _); [|apply reports_ret].
    apply reports_bind; [apply reports_set|intros _; apply reports_persistQueue]. }
  intros _. destruct (_ && _); [apply reports_showNext|apply reports_ret].
Qed.

Lemma clearCurrent_resolves w : res (clearCurrent w) = resolved tt.
Proof.
  unfold clearCurrent, bind, set, get, spawn. cbn.
  by destruct (queue (store w)).
Qed.

(** C7, as amended.  [enqueue] and [showNext] await every table call they
    make, directly or through [persistQueue] and [showNext]: when a call is
    rejected the operation rejects with the error of the first rejected
    call, and it resolves when none is.  [clearCurrent] is synchronous: it
    does not await the [showNext] it starts and always returns normally. *)
Theorem persistence_failures_reported :
  (∀ message, reports_rejections (enqueue message)) ∧
  reports_rejections showNext ∧
  (∀ w, res (clearCurrent w) = resolved tt).
Proof.
  split; [apply reports_enqueue|].
  split; [apply reports_showNext | apply clearCurrent_resolves].
Qed.

(** C7 as stated fails for [clearCurrent]: the status write of the
    [showNext] it starts is rejected, yet [clearCurrent] returns normally. *)
Lemma clearCurrent_swallows_rejection : ¬ reports_rejections clearCurrent.
Proof. intros H. specialize (H one_queued_failing). discriminate H. Qed.

(** ** The busy flag and the current message *)

Section preserves.
Context (I : World → Prop).

Lemma preserves_ret {A} (a : A) : preserves I (ret a).
Proof. by intros w. Qed.

Lemma preserves_get : preserves I get.
Proof. by intros w. Qed.

Lemma preserves_emit e : preserves I (emit e).
Proof. by intros w. Qed.

Lemma preserves_bind {A B} (c : M A) (k : A → M B) :
  preserves I c → (∀ a, preserves I (k a)) → preserves I (bind c k).
Proof.
  intros Hc Hk w H. unfold bind. specialize (Hc w H).
  destruct (res (c w)); [by apply Hk | done].
Qed.

Lemma preserves_both (c1 c2 : M unit) :
  preserves I c1 → preserves I c2 → preserves I (both c1 c2).
Proof. intros H1 H2 w H. unfold both. cbn. by apply H2, H1. Qed.

Lemma preserves_spawn {A} (c : M A) : preserves I c → preserves I (spawn c).
Proof. intros Hc w H. by apply Hc. Qed.

Lemma preserves_if {A} (b : bool) (c1 c2 : M A) :
  preserves I c1 → preserves I c2 → preserves I (if b then c1 else c2).
Proof. by destruct b. Qed.

(** The invariant must survive a rejected call, which only consumes an
    entry of the fault script. *)
Hypothesis I_faults : ∀ w fs, I w → I (with_db (db w) fs w).

Lemma preserves_table_call {A} call (run : DB → A * DB) :
  (∀ w fs, I w → I (with_db (run (db w)).2 fs w)) →
  preserves I (table_call call run).
Proof.
  intros Hrun w H. unfold table_call.
  destruct (faults w) as [|[|] fs]; [| by apply I_faults |];
    specialize (Hrun w); destruct (run (db w)); by apply Hrun.
Qed.

Lemma preserves_read {A} call (f : DB → A) :
  preserves I (table_call call (λ d, (f d, d))).
Proof. apply preserves_table_call. intros w fs. apply I_faults. Qed.

(** Position updates and changes of the queue alone. *)
Hypothesis I_position : ∀ w fs k p,
  I w → I (with_db (Table.update k (position_change p) (db w)) fs w).
Hypothesis I_queue : ∀ w q, I w → I (with_store (upd_queue q (store w)) w).

Lemma preserves_updateQueuePositions ps :
  preserves I (updateQueuePositions ps).
Proof.
  induction ps as [|p ps IH]; [apply preserves_ret|].
  apply preserves_both; [|apply IH].
  apply preserves_table_call. intros w fs. apply I_position.
Qed.

Lemma preserves_persistQueue : preserves I persistQueue.
Proof.
  apply preserves_bind; [apply preserves_get|].
  intros ?. apply preserves_updateQueuePositions.
Qed.

Lemma preserves_set_queue q : preserves I (set (upd_queue q)).
Proof. intros w. apply I_queue. Qed.

Lemma preserves_append message (state : QueueState) (b : bool) :
  preserves I
    (if b then set (upd_queue (queue state ++ [message])) >> persistQueue
     else ret tt).
Proof.
  apply preserves_if; [|apply preserves_ret].
  apply preserves_bind; [apply preserves_set_queue|].
  intros _. apply preserves_persistQueue.
Qed.

(** What [showNext] writes besides. *)
Hypothesis I_showing : ∀ w fs k,
  I w → I (with_db (Table.update k (status_change showing) (db w)) fs w).
Hypothesis I_idle : ∀ w,
  I w → I (with_store (upd_isProcessing false
                         (upd_currentMessage None (store w))) w).
Hypothesis I_show : ∀ w m,
  I w → I (with_store (upd_currentMessage (Some m)
                         (upd_isProcessing true (store w))) w).

Lemma preserves_showNext : preserves I showNext.
Proof.
  apply preserves_bind; [apply preserves_emit|intros _].
  apply preserves_bind; [apply preserves_get|intros st].
  apply preserves_if; [apply preserves_ret|].
  apply preserves_bind.
  { apply preserves_bind; [apply preserves_get|intros st'].
    destruct (queue st'); [apply preserves_ret|].
    apply preserves_bind; [apply preserves_set_queue|].
    intros _; apply preserves_ret. }
  intros [m|]; [|intros w; apply I_idle].
  apply preserves_bind; [intros w; apply I_show|intros _].
  apply preserves_bind; [|intros _; apply preserves_persistQueue].
  apply preserves_table_call. intros w fs. apply I_showing.
Qed.

Lemma preserves_clearCurrent : preserves I clearCurrent.
Proof.
  apply preserves_bind; [intros w; apply I_idle|intros _].
  apply preserves_bind; [apply preserves_get|intros st].
  apply preserves_if; [apply preserves_spawn, preserves_showNext|].
  apply preserves_ret.
Qed.
End preserves.

(** *** Invariants of the store state *)

Section store_invariant.
Context (P : QueueState → Prop).
Hypothesis P_queue : ∀ s q, P s → P (upd_queue q s).
Hypothesis P_idle : ∀ s,
  P s → P (upd_isProcessing false (upd_currentMessage None s)).
Hypothesis P_show : ∀ s m,
  P s → P (upd_currentMessage (Some m) (upd_isProcessing true s)).

Lemma on_store_table_call {A} call (run : DB → A * DB) :
  preserves (on_store P) (table_call call run).
Proof. by apply preserves_table_call. Qed.

Lemma on_store_persistQueue : preserves (on_store P) persistQueue.
Proof. apply preserves_persistQueue; try done; unfold on_store; cbn; auto. Qed.

Lemma on_store_showNext : preserves (on_store P) showNext.
Proof. apply preserves_showNext; try done; unfold on_store; cbn; auto. Qed.

Lemma on_store_clearCurrent : preserves (on_store P) clearCurrent.
Proof. apply preserves_clearCurrent; try done; unfold on_store; cbn; auto. Qed.

Lemma on_store_enqueue message : preserves (on_store P) (enqueue message).
Proof.
  apply preserves_bind; [apply preserves_get|intros state].
  apply preserves_bind.
  { apply preserves_bind; [apply on_store_table_call|].
    intros ?; apply preserves_ret. }
  intros exists_. apply preserves_bind.
  { apply preserves_if; [|apply preserves_ret].
    intros w. unfold saveMessage. apply on_store_table_call. }
  intros _. apply preserves_bind.
  { apply preserves_append; try done; unfold on_store; cbn; auto. }
  intros _. apply preserves_if; [apply on_store_showNext|apply preserves_ret].
Qed.

Hypothesis P_initialized : ∀ s b, P s → P (upd_initialized b s).

Lemma on_store_initializeFromDatabase :
  preserves (on_store P) initializeFromDatabase.
Proof.
  apply preserves_bind; [apply preserves_get|intros state].
  apply preserves_if; [apply preserves_ret|].
  apply preserves_bind; [intros w; apply P_initialized|intros _].
  apply preserves_bind; [apply on_store_table_call|intros rows].
  apply preserves_if; [|apply preserves_ret].
  apply preserves_bind; [intros w; apply P_queue|].
  intros _; apply on_store_showNext.
Qed.
End store_invariant.

Lemma busy_iff_current_initial : busy_iff_current initialState.
Proof. split; cbn; done. Qed.

Lemma preserves_run_op o :
  raw_setter o = false → preserves (on_store busy_iff_current) (run_op o).
Proof.
  assert (∀ s q, busy_iff_current s → busy_iff_current (upd_queue q s))
    as Hq by done.
  assert (∀ s, busy_iff_current s →
               busy_iff_current (upd_isProcessing false
                                   (upd_currentMessage None s))) as Hi.
  { intros s _. split; cbn; done. }
  assert (∀ s m, busy_iff_current s →
                 busy_iff_current (upd_currentMessage (Some m)
                                     (upd_isProcessing true s))) as Hs.
  { intros s m _. split; cbn; done. }
  destruct o; cbn; intros; try done.
  - by apply on_store_enqueue.
  - by apply on_store_showNext.
  - by apply on_store_clearCurrent.
  - by apply on_store_initializeFromDatabase.
  - apply preserves_bind; [|intros _; by apply on_store_table_call].
    intros w _. split; cbn; done.
Qed.

(** C4, as amended.  From the initial state, after any sequence of
    [enqueue], [showNext], [clearCurrent], [initializeFromDatabase] and
    [clearOnLogout], whatever table calls are rejected on the way,
    [isProcessing] is true exactly when [currentMessage] is not null. *)
Theorem busy_iff_current_reachable (ops : list Op) (w : World) :
  forallb (λ o, negb (raw_setter o)) ops = true →
  store w = initialState →
  busy_iff_current (store (run_ops ops w)).
Proof.
  intros Hops Hw.
  assert (on_store busy_iff_current w) as H.
  { unfold on_store. rewrite Hw. apply busy_iff_current_initial. }
  clear Hw. revert w H. induction ops as [|o ops IH]; intros w H; [done|].
  cbn in Hops. apply andb_prop in Hops as [Ho Hops].
  cbn. apply IH; [done|]. apply preserves_run_op; [|done].
  by destruct (raw_setter o).
Qed.

(** C4 as stated fails: [setIsProcessing(true)] on the initial state. *)
Lemma raw_setter_breaks :
  ¬ busy_iff_current
      (store (run_ops [op_setIsProcessing true] (fresh_world ∅ []))).
Proof. intros [H _]. cbn in H. by specialize (H eq_refl). Qed.

Lemma busy_iff_current_reachable_witness :
  forallb (λ o, negb (raw_setter o))
    [op_enqueue (sample "a"); op_enqueue (sample "b"); op_clearCurrent] = true ∧
  store (fresh_world ∅ [false; true]) = initialState ∧
  busy_iff_current
    (store (run_ops [op_enqueue (sample "a"); op_enqueue (sample "b");
                     op_clearCurrent]
              (fresh_world ∅ [false; true]))).
Proof.
  split; [reflexivity|]. split; [reflexivity|].
  apply busy_iff_current_reachable; reflexivity.
Defined.


(** ** clearCurrent *)

Lemma showNext_events_head w : ∃ evs, events (showNext w) = ev_showNext :: evs.
Proof. unfold showNext. unfold bind at 1. cbn. eauto. Qed.

(** The store state does not depend on the table. *)

Lemma table_call_store {A} call (run : DB → A * DB) w :
  store (final (table_call call run w)) = store w.
Proof.
  unfold table_call. destruct (faults w) as [|[|] fs]; try done;
    by destruct (run (db w)).
Qed.

Lemma persistQueue_store w : store (final (persistQueue w)) = store w.
Proof.
  symmetry. apply (preserves_persistQueue (on_store (eq (store w)))); done.
Qed.

Lemma showNext_store w : store (final (showNext w)) = next_state (store w).
Proof.
  unfold showNext, next_state, dequeue, bind, emit, get. cbn.
  destruct (isProcessing (store w)); [done|]. cbn.
  destruct (queue (store w)) as [|m rest]; [done|]. cbn.
  unfold updateQueueStatus, table_update.
  match goal with |- context [table_call ?c ?r ?w'] =>
    pose proof (table_call_store c r w') as Hs;
    destruct (res (table_call c r w')) end; cbn.
  - by rewrite persistQueue_store, Hs.
  - by rewrite Hs.
Qed.

Lemma clearCurrent_store (w : World) :
  store (final (clearCurrent w)) =
  match queue (store w) with
  | [] => cleared (store w)
  | m :: rest =>
      upd_currentMessage (Some m)
        (upd_isProcessing true (upd_queue rest (cleared (store w))))
  end.
Proof.
  unfold clearCurrent, bind, set, get, spawn. cbn.
  destruct (queue (store w)) as [|m rest] eqn:Hq; [done|]. cbn.
  rewrite showNext_store. unfold next_state. cbn. by rewrite Hq.
Qed.

Lemma hasMessage_store k w : store (final (hasMessage k w)) = store w.
Proof.
  unfold hasMessage, getMessage, bind.
  pose proof (table_call_store (call_get k) (λ d, (Table.get k d, d)) w) as H.
  by destruct (res (table_call _ _ w)).
Qed.

Lemma saveMessage_store m w : store (final (saveMessage m w)) = store w.
Proof. unfold saveMessage. apply table_call_store. Qed.

(** C3.  Whatever the state was, the first state [clearCurrent] publishes
    has [currentMessage = null] and [isProcessing = false] and is otherwise
    the state it started from.  With an empty queue nothing else happens:
    that state is the final one and the table is untouched.  With a
    non-empty queue [showNext] is entered on that state, and only then (the
    event [ev_showNext] marks an entry into [showNext]); as the busy flag
    was cleared it shows the head of the queue, whatever table calls are
    rejected.  [clearCurrent] itself always returns normally. *)
Theorem clearCurrent_spec (w : World) :
  let o := clearCurrent w in
  res o = resolved tt ∧
  (∃ s0 evs,
     events o = ev_set s0 :: evs ∧
     currentMessage s0 = None ∧
     isProcessing s0 = false ∧
     queue s0 = queue (store w) ∧
     initialized s0 = initialized (store w) ∧
     activeWindowIds s0 = activeWindowIds (store w) ∧
     match queue (store w) with
     | [] => evs = [] ∧ store (final o) = s0 ∧ db (final o) = db w
     | _ :: _ =>
         evs = events (showNext (with_store s0 w)) ∧
         final o = final (showNext (with_store s0 w))
     end) ∧
  (ev_showNext ∈ events o ↔ queue (store w) ≠ []) ∧
  match queue (store w) with
  | [] =>
      currentMessage (store (final o)) = None ∧
      isProcessing (store (final o)) = false ∧
      queue (store (final o)) = []
  | m :: rest =>
      currentMessage (store (final o)) = Some m ∧
      isProcessing (store (final o)) = true ∧
      queue (store (final o)) = rest
  end.
Proof.
  cbn zeta. split; [apply clearCurrent_resolves|].
  pose proof (clearCurrent_store w) as Hs.
  unfold clearCurrent, bind, set, get, spawn in *. revert Hs. cbn.
  destruct (queue (store w)) as [|m rest] eqn:Hq; cbn; intros Hs.
  - split.
    { eexists _, _. split; [reflexivity|]. cbn. by rewrite Hq. }
    split.
    { split; [|done]. intros H.
      apply elem_of_cons in H as [?|H]; [done|]. by apply elem_of_nil in H. }
    by rewrite Hq.
  - split.
    { eexists _, _. split; [reflexivity|]. cbn. by rewrite Hq. }
    split.
    { split; [done|]. intros _.
      destruct (showNext_events_head
                  (with_store (upd_isProcessing false
                                 (upd_currentMessage None (store w))) w))
        as [evs ->].
      set_solver. }
    by rewrite Hs.
Qed.

Lemma clearCurrent_spec_witness :
  let busy := with_store (upd_queue [sample "b"] (first_shown (sample "a")))
                (fresh_world (rows_after_second (sample "a") (sample "b")
                                "2024-06-01T12:00:00.000Z") [true]) in
  let last := with_store (first_shown (sample "a"))
                (fresh_world (rows_after_first (sample "a")
                                "2024-06-01T12:00:00.000Z") []) in
  (currentMessage (store busy) = Some (sample "a") ∧
   isProcessing (store busy) = true) ∧
  (currentMessage (store (final (clearCurrent busy))) = Some (sample "b") ∧
   isProcessing (store (final (clearCurrent busy))) = true ∧
   queue (store (final (clearCurrent busy))) = []) ∧
  (currentMessage (store (final (clearCurrent last))) = None ∧
   isProcessing (store (final (clearCurrent last))) = false ∧
   queue (store (final (clearCurrent last))) = []).
Proof.
  cbn zeta. split; [by split|]. split.
  - apply (clearCurrent_spec
             (with_store (upd_queue [sample "b"] (first_shown (sample "a")))
                (fresh_world (rows_after_second (sample "a") (sample "b")
                                "2024-06-01T12:00:00.000Z") [true]))).
  - apply (clearCurrent_spec
             (with_store (first_shown (sample "a"))
                (fresh_world (rows_after_first (sample "a")
                                "2024-06-01T12:00:00.000Z") []))).
Defined.

(** ** clearOnLogout *)

Lemma delete_where_lookup statuses (d : DB) k :
  Table.delete_where statuses d !! k =
  match d !! k with
  | Some r => if bool_decide (queueStatus r ∈ statuses) then None else Some r
  | None => None
  end.
Proof.
  unfold Table.delete_where. rewrite map_lookup_filter.
  destruct (d !! k) as [r|]; [|done]. cbn.
  case_bool_decide; case_guard; done.
Qed.

Lemma where_queueStatus_lookup statuses (d : DB) k :
  Table.where_queueStatus statuses d !! k =
  match d !! k with
  | Some r => if bool_decide (queueStatus r ∈ statuses) then Some r else None
  | None => None
  end.
Proof.
  unfold Table.where_queueStatus. rewrite map_lookup_filter.
  destruct (d !! k) as [r|]; [|done]. cbn.
  case_bool_decide; case_guard; done.
Qed.

Lemma sortBy_queuePosition_empty : Table.sortBy_queuePosition ∅ = [].
Proof.
  unfold Table.sortBy_queuePosition, Table.toArray.
  by rewrite map_to_list_empty.
Qed.

Lemma no_pending_after_delete (d : DB) :
  Table.where_queueStatus [pending]
    (Table.delete_where [pending; showing] d) = ∅.
Proof.
  apply map_empty. intros k.
  rewrite where_queueStatus_lookup, delete_where_lookup.
  destruct (d !! k) as [r|]; [|done].
  case_bool_decide as Hb; [done|]. cbn.
  case_bool_decide as Hp; [|done]. exfalso. apply Hb.
  apply list_elem_of_singleton in Hp. rewrite Hp. apply list_elem_of_here.
Qed.

(** C8.  With no table call rejected, [clearOnLogout] leaves the queue
    empty, no current message, [isProcessing = false], no active window id
    and [initialized = false]; it deletes from the table exactly the rows
    whose status is [pending] or [showing] and keeps every other row as it
    was; afterwards [getPendingMessages] answers the empty list. *)
Theorem clearOnLogout_spec (w : World) (Hf : faults w = []) :
  let o := clearOnLogout w in
  res o = resolved tt ∧
  queue (store (final o)) = [] ∧
  currentMessage (store (final o)) = None ∧
  isProcessing (store (final o)) = false ∧
  activeWindowIds (store (final o)) = [] ∧
  initialized (store (final o)) = false ∧
  (∀ k, db (final o) !! k =
        match db w !! k with
        | Some r =>
            if bool_decide (queueStatus r = pending ∨ queueStatus r = showing)
            then None else Some r
        | None => None
        end) ∧
  res (getPendingMessages (final o)) = resolved [].
Proof.
  destruct w as [s d fs n a c mo wt cr]; cbn in Hf; subst fs. cbn zeta.
  unfold clearOnLogout, clearPendingMessages, bind, set. cbn.
  repeat (split; [done|]). split.
  - intros k. rewrite delete_where_lookup.
    destruct (d !! k) as [r|]; [|done].
    generalize (queueStatus r). intros []; reflexivity.
  - unfold getPendingMessages, table_call. cbn.
    by rewrite no_pending_after_delete, sortBy_queuePosition_empty.
Qed.

Lemma clearOnLogout_spec_witness :
  faults (fresh_world mixed_table []) = [] ∧
  res (getPendingMessages (final (clearOnLogout (fresh_world mixed_table []))))
    = resolved [].
Proof.
  split; [reflexivity|].
  apply (clearOnLogout_spec (fresh_world mixed_table []) eq_refl).
Defined.

(** ** Runs without rejected calls *)

Lemma showNext_final s d n a c mo wt cr :
  let o := showNext (mkWorld s d [] n a c mo wt cr) in
  res o = resolved tt ∧
  final o = mkWorld (shown_next s d).1 (shown_next s d).2 [] n a c mo wt cr.
Proof.
  cbn zeta. unfold shown_next. destruct (isProcessing s) eqn:Hp.
  - by rewrite showNext_busy.
  - destruct (queue s) as [|m rest] eqn:Hq.
    + by rewrite showNext_empty.
    + by rewrite (showNext_reliable _ _ _ _ _ _ _ _ m rest).
Qed.

Ltac world_simpl :=
  unfold with_db, with_store, with_windows;
  cbn [res final events store db faults now activeWindows config monitor
       webviewThrows closeRejects fst snd ret tail negb queue upd_queue].

Lemma enqueue_final m s d n a c mo wt cr :
  let o := enqueue m (mkWorld s d [] n a c mo wt cr) in
  res o = resolved tt ∧
  final o = mkWorld (enqueued m n s d).1 (enqueued m n s d).2 [] n a c mo wt cr.
Proof.
  cbn zeta. unfold enqueued, in_queue, idle.
  unfold enqueue, hasMessage, getMessage, saveMessage, bind, get, set,
    table_call, Table.get.
  world_simpl.
  destruct (bool_decide (is_Some (d !! id m)));
    destruct (existsb _ (queue s));
    destruct (negb (isProcessing s) && _);
    world_simpl; rewrite ?persistQueue_reliable; world_simpl;
    try done;
    match goal with
    | |- context [showNext (mkWorld ?s' ?d' _ _ _ _ _ _ _)] =>
        by destruct (showNext_final s' d' n a c mo wt cr) as [-> ->]
    end.
Qed.

(** ** Restart *)

(** C5 as stated fails: after the restart the current message is [m2] and
    the queue is empty. *)
Lemma restart_loses_showing :
  ¬ (id <$> queue (store (restart_scenario (sample "m1") (sample "m2")
                            (fresh_world ∅ []))) = ["m1"; "m2"] ∧
     currentMessage (store (restart_scenario (sample "m1") (sample "m2")
                              (fresh_world ∅ []))) = Some (sample "m1")).
Proof. intros [_ H]. vm_compute in H. discriminate H. Qed.

Lemma restart_sample_run :
  store (restart_scenario (sample "m1") (sample "m2") (fresh_world ∅ [])) =
  {| queue := []; currentMessage := Some (sample "m2"); isProcessing := true;
     initialized := true; activeWindowIds := [] |}.
Proof. vm_compute. reflexivity. Qed.

Section restart.
Variables (m1 m2 : MessageType) (n : string).
Hypothesis distinct : id m1 ≠ id m2.

Lemma first_enqueue :
  enqueued m1 n initialState ∅ = (first_shown m1, rows_after_first m1 n).
Proof.
  unfold enqueued, in_queue, idle, shown_next. rewrite lookup_empty. cbn.
  unfold bulk_positions, Table.update, Table.put. cbn.
  rewrite !alter_insert_eq. rewrite insert_empty. reflexivity.
Qed.

Lemma second_enqueue :
  enqueued m2 n (first_shown m1) (rows_after_first m1 n) =
  (upd_queue [m2] (first_shown m1), rows_after_second m1 m2 n).
Proof.
  unfold enqueued, in_queue, idle, shown_next, rows_after_first.
  rewrite lookup_singleton_ne by done. cbn.
  unfold bulk_positions, Table.update, Table.put. cbn.
  rewrite alter_insert_eq. reflexivity.
Qed.

Lemma pending_after_two :
  Table.sortBy_queuePosition
    (Table.where_queueStatus [pending] (rows_after_second m1 m2 n))
  = [new_row m2 n].
Proof.
  unfold Table.where_queueStatus, rows_after_second, rows_after_first.
  rewrite map_filter_insert_True by (cbn; apply list_elem_of_here).
  rewrite map_filter_singleton_False.
  2:{ cbn. intros H. apply list_elem_of_singleton in H. done. }
  rewrite insert_empty.
  unfold Table.sortBy_queuePosition, Table.toArray.
  rewrite map_to_list_singleton. reflexivity.
Qed.
End restart.

(** C5, as amended.  From an empty table and a fresh idle queue, with no
    table call rejected and [m1], [m2] of different ids: after [enqueue m1]
    and [enqueue m2] the row of [m1] is [showing] and the row of [m2] is
    [pending].  A restart followed by [initializeFromDatabase] loads the
    pending rows only: [m2] becomes the current message, the queue is empty,
    and [m1], still stored as [showing], is not restored. *)
Theorem restart_restores_pending (m1 m2 : MessageType) (w : World) :
  store w = initialState → db w = ∅ → faults w = [] → id m1 ≠ id m2 →
  let w2 := final (enqueue m2 (final (enqueue m1 w))) in
  let w3 := restart_scenario m1 m2 w in
  queueStatus <$> db w2 !! id m1 = Some showing ∧
  queueStatus <$> db w2 !! id m2 = Some pending ∧
  queue (store w3) = [] ∧
  currentMessage (store w3) = Some m2 ∧
  isProcessing (store w3) = true ∧
  queueStatus <$> db w3 !! id m1 = Some showing.
Proof.
  destruct w as [s d fs n a c mo wt cr]. cbn [store db faults].
  intros -> -> -> Hne. cbn zeta. unfold restart_scenario.
  destruct (enqueue_final m1 initialState ∅ n a c mo wt cr) as [_ ->].
  rewrite first_enqueue. cbn [fst snd].
  match goal with |- context [enqueue m2 (mkWorld ?s ?d _ _ _ _ _ _ _)] =>
    destruct (enqueue_final m2 s d n a c mo wt cr) as [_ ->] end.
  rewrite second_enqueue by done. cbn [fst snd].
  split.
  { cbn. unfold rows_after_second, rows_after_first.
    rewrite lookup_insert_ne by done. by rewrite lookup_singleton_eq. }
  split.
  { cbn. unfold rows_after_second. by rewrite lookup_insert_eq. }
  unfold reopen, initializeFromDatabase, getPendingMessages, bind, get, set,
    table_call.
  cbn.
  rewrite pending_after_two by done. cbn.
  unfold with_store, with_db, with_windows. cbn.
  match goal with |- context [showNext (mkWorld ?s ?d _ _ ?a _ _ _ _)] =>
    destruct (showNext_final s d n a c mo wt cr) as [_ ->] end.
  cbn. repeat (split; [done|]).
  unfold Table.update, rows_after_second, rows_after_first.
  rewrite lookup_alter_ne by done.
  rewrite lookup_insert_ne by done. by rewrite lookup_singleton_eq.
Qed.

Lemma restart_restores_pending_witness :
  store (fresh_world ∅ []) = initialState ∧
  db (fresh_world ∅ []) = ∅ ∧
  faults (fresh_world ∅ []) = [] ∧
  id (sample "m1") ≠ id (sample "m2") ∧
  currentMessage
    (store (restart_scenario (sample "m1") (sample "m2") (fresh_world ∅ [])))
  = Some (sample "m2").
Proof.
  split; [reflexivity|]. split; [reflexivity|]. split; [reflexivity|].
  split; [discriminate|].
  apply (restart_restores_pending (sample "m1") (sample "m2")
           (fresh_world ∅ []) eq_refl eq_refl eq_refl).
  discriminate.
Defined.

(** ** enqueue and the rows already stored *)

Section row_invariant.
Context (k : string) (r : StoredMessage) (S : QueueStatus → Prop).

Lemma row_kept_refl (d : DB) :
  d !! k = Some r → S (queueStatus r) → row_kept k r S d.
Proof. intros Hr HS. exists r. by repeat split. Qed.

Lemma row_kept_position k' p d :
  row_kept k r S d → row_kept k r S (Table.update k' (position_change p) d).
Proof.
  intros (r' & Hr' & H). destruct (decide (k' = k)) as [->|Hne].
  - exists (apply_changes (position_change p) r'). split; [|done].
    by apply update_lookup_eq.
  - exists r'. split; [|done]. by rewrite update_lookup_ne.
Qed.

Lemma row_kept_append message (state : QueueState) (b : bool) :
  preserves (on_rows (row_kept k r S))
    (if b then set (upd_queue (queue state ++ [message])) >> persistQueue
     else ret tt).
Proof.
  apply preserves_append; try done.
  intros w fs k' p. apply row_kept_position.
Qed.

End row_invariant.

Lemma row_kept_weaken k r (S S' : QueueStatus → Prop) d :
  (∀ st, S st → S' st) → row_kept k r S d → row_kept k r S' d.
Proof.
  intros HS (r' & ? & ? & ? & ? & ? & ?). exists r'. repeat split; auto.
Qed.

(** [showNext] rewrites the status of one row only: that of the head of
    the queue, and only when it is not busy. *)
Lemma showNext_row k r0 st0 w :
  row_kept k r0 (eq st0) (db w) →
  row_kept k r0
    (λ st, st = st0 ∨
           isProcessing (store w) = false ∧
           id <$> head (queue (store w)) = Some k ∧ st = showing)
    (db (final (showNext w))).
Proof.
  intros H.
  unfold showNext, dequeue, bind, emit, get, set. cbn.
  destruct (isProcessing (store w)) eqn:Hp; cbn.
  { eapply row_kept_weaken; [|exact H]. intros st <-. by left. }
  destruct (queue (store w)) as [|x rest] eqn:Hq; cbn.
  { eapply row_kept_weaken; [|exact H]. intros st <-. by left. }
  unfold updateQueueStatus, table_update, table_call. cbn.
  destruct (faults w) as [|[|] fs]; cbn.
  - match goal with |- context [persistQueue ?w'] =>
      apply (preserves_persistQueue
               (on_rows (row_kept k r0
                  (λ st, st = st0 ∨ false = false ∧
                         Some (id x) = Some k ∧ st = showing))) ) with (w := w')
    end; try done.
    + intros w' fs' k' p. apply row_kept_position.
    + unfold on_rows. cbn.
      destruct H as (r' & Hr' & ? & ? & ? & ? & Hst).
      destruct (decide (id x = k)) as [<-|Hne].
      * exists (apply_changes (status_change showing) r').
        split; [by apply update_lookup_eq|]. repeat split; try done.
        by right.
      * exists r'. rewrite update_lookup_ne by done.
        repeat split; try done. by left.
  - eapply row_kept_weaken; [|exact H]. intros st <-. by left.
  - match goal with |- context [persistQueue ?w'] =>
      apply (preserves_persistQueue
               (on_rows (row_kept k r0
                  (λ st, st = st0 ∨ false = false ∧
                         Some (id x) = Some k ∧ st = showing))) ) with (w := w')
    end; try done.
    + intros w' fs' k' p. apply row_kept_position.
    + unfold on_rows. cbn.
      destruct H as (r' & Hr' & ? & ? & ? & ? & Hst).
      destruct (decide (id x = k)) as [<-|Hne].
      * exists (apply_changes (status_change showing) r').
        split; [by apply update_lookup_eq|]. repeat split; try done.
        by right.
      * exists r'. rewrite update_lookup_ne by done.
        repeat split; try done. by left.
Qed.

Lemma append_store m (state : QueueState) (b : bool) w :
  store (final ((if b then set (upd_queue (queue state ++ [m])) >> persistQueue
                 else ret tt) w)) =
  if b then upd_queue (queue state ++ [m]) (store w) else store w.
Proof.
  destruct b; [|done]. unfold bind, set. cbn.
  match goal with |- context [persistQueue ?w'] =>
    pose proof (persistQueue_store w') as Hs;
    destruct (res (persistQueue w')) end; cbn; by rewrite Hs.
Qed.

Lemma head_app_in m (q : list MessageType) :
  existsb (λ x, bool_decide (id x = id m)) q = true →
  head (q ++ [m]) = head q.
Proof. by destruct q. Qed.

Lemma enqueue_row_kept m r w :
  db w !! id m = Some r →
  row_kept (id m) r
    (λ st, st = queueStatus r ∨
           idle (store w) = true ∧
           id <$> head (queue (store w) ++ [m]) = Some (id m) ∧
           st = showing)
    (db (final (enqueue m w))).
Proof.
  intros Hr.
  set (P := λ st, st = queueStatus r ∨
                  idle (store w) = true ∧
                  id <$> head (queue (store w) ++ [m]) = Some (id m) ∧
                  st = showing).
  assert (∀ d, row_kept (id m) r (eq (queueStatus r)) d →
               row_kept (id m) r P d) as Hweak.
  { intros d. apply row_kept_weaken. intros st <-. by left. }
  assert (row_kept (id m) r (eq (queueStatus r)) (db w)) as H0.
  { by apply row_kept_refl. }
  unfold enqueue. unfold bind at 1. cbn [get res final events].
  unfold bind at 1.
  assert (preserves (on_rows (row_kept (id m) r (eq (queueStatus r))))
            (hasMessage (id m))) as Hhas.
  { apply preserves_bind; [by apply preserves_read|].
    intros ?; apply preserves_ret. }
  specialize (Hhas w H0).
  pose proof (hasMessage_store (id m) w) as Hs1.
  destruct (res (hasMessage (id m) w)) as [exists_|e] eqn:Hres;
    [|by apply Hweak].
  assert (exists_ = true) as ->.
  { revert Hres. unfold hasMessage, getMessage, bind, table_call, Table.get.
    destruct (faults w) as [|[|] fs]; cbn; rewrite ?Hr; try done;
      intros [= <-]; first [done | apply bool_decide_eq_true; eauto]. }
  cbn [negb]. revert Hhas Hs1.
  generalize (final (hasMessage (id m) w)). intros w1 H1 Hs1.
  cbn [final]. unfold bind at 1. cbn [ret res final events].
  unfold bind at 1.
  fold (in_queue m (store w)). fold (idle (store w)).
  pose proof (row_kept_append (id m) r (eq (queueStatus r)) m (store w)
                (negb (in_queue m (store w))) w1 H1) as H2.
  pose proof (append_store m (store w) (negb (in_queue m (store w))) w1)
    as Hs2.
  revert H2 Hs2.
  match goal with |- context [res (?c w1)] => generalize (c w1) end.
  intros o2 H2 Hs2. unfold on_rows in H2.
  destruct (res o2); cbn [final]; [|by apply Hweak].
  destruct (idle (store w)) eqn:Hidle; [|by apply Hweak].
  eapply row_kept_weaken; [|apply showNext_row, H2].
  intros st [->|(_ & Hhead & ->)]; [by left|]. right.
  split; [done|]. split; [|done].
  rewrite Hs2, Hs1 in Hhead.
  destruct (in_queue m (store w)) eqn:Hin; cbn in Hhead.
  - unfold in_queue in Hin. by rewrite head_app_in.
  - done.
Qed.

(** The status of the row after a run without rejected calls. *)
Lemma enqueued_status m r n s d :
  d !! id m = Some r →
  ∃ r', (enqueued m n s d).2 !! id m = Some r' ∧
        queueStatus r' =
          if idle s &&
             bool_decide (id <$> head (queue s ++ [m]) = Some (id m))
          then showing else queueStatus r.
Proof.
  intros Hr. unfold enqueued.
  rewrite bool_decide_eq_true_2 by eauto.
  set (s2 := if in_queue m s then s else upd_queue (queue s ++ [m]) s).
  set (d2 := if in_queue m s then d
             else bulk_positions (positions (queue s ++ [m])) d).
  assert (∃ r2, d2 !! id m = Some r2 ∧ queueStatus r2 = queueStatus r)
    as (r2 & Hr2 & Hst2).
  { unfold d2. destruct (in_queue m s); [by eauto|].
    destruct (bulk_lookup_frame (positions (queue s ++ [m])) d (id m) r Hr)
      as (r2 & ? & _ & _ & _ & _ & ?). eauto. }
  assert (isProcessing s2 = isProcessing s) as Hp2.
  { unfold s2. by destruct (in_queue m s). }
  assert (∃ x rest, queue s2 = x :: rest ∧ head (queue s ++ [m]) = Some x)
    as (x & rest & Hq2 & Hhead).
  { unfold s2. destruct (in_queue m s) eqn:Hin.
    - unfold in_queue in Hin. destruct (queue s) as [|x rest]; [done|].
      by exists x, rest.
    - cbn. destruct (queue s) as [|x rest]; cbn; eauto. }
  destruct (idle s) eqn:Hidle; cbn [andb snd]; [|by eauto].
  unfold shown_next. rewrite Hp2.
  assert (isProcessing s = false) as ->.
  { unfold idle in Hidle. by destruct (isProcessing s). }
  rewrite Hq2, Hhead. cbn [snd fmap option_fmap option_map].
  destruct (decide (id x = id m)) as [Hx|Hx].
  - rewrite bool_decide_eq_true_2 by (by rewrite Hx).
    destruct (bulk_lookup_frame (positions rest)
                (Table.update (id x) (status_change showing) d2) (id m)
                (apply_changes (status_change showing) r2))
      as (r' & ? & _ & _ & _ & _ & ?).
    { rewrite Hx. by apply update_lookup_eq. }
    eauto.
  - rewrite bool_decide_eq_false_2 by congruence.
    destruct (bulk_lookup_frame (positions rest)
                (Table.update (id x) (status_change showing) d2) (id m) r2)
      as (r' & ? & _ & _ & _ & _ & ?).
    { by rewrite update_lookup_ne. }
    exists r'. split; [done|]. congruence.
Qed.

(** C10, as amended.  When [message.id] already has a row, [enqueue]
    never saves it again, whatever table calls are rejected: the row keeps
    its message fields, [timestamp], [isRead] and [isShown], and
    [queuePosition] is the only other field that may change, but for one
    case.  The [queueStatus] can change only when the call is made on an
    idle context and the message it then shows, the head of the queue after
    the append, has that id: the status is then rewritten to [showing].
    With no table call rejected the status is [showing] in exactly that
    case and unchanged in every other. *)
Theorem enqueue_keeps_stored_row (m : MessageType) (r : StoredMessage)
    (w : World) :
  db w !! id m = Some r →
  ∃ r', db (final (enqueue m w)) !! id m = Some r' ∧
        message r' = message r ∧
        timestamp r' = timestamp r ∧ isRead r' = isRead r ∧
        isShown r' = isShown r ∧
        (queueStatus r' = queueStatus r ∨
         idle (store w) = true ∧
         id <$> head (queue (store w) ++ [m]) = Some (id m) ∧
         queueStatus r' = showing) ∧
        (faults w = [] →
         queueStatus r' =
           if idle (store w) &&
              bool_decide (id <$> head (queue (store w) ++ [m])
                           = Some (id m))
           then showing else queueStatus r).
Proof.
  intros Hr.
  destruct (enqueue_row_kept m r w Hr) as (r' & Hr' & ? & ? & ? & ? & ?).
  exists r'. repeat (split; [done|]).
  intros Hf. destruct w as [s d fs n a c mo wt cr]. cbn in Hf, Hr. subst fs.
  destruct (enqueue_final m s d n a c mo wt cr) as [_ Hfin].
  rewrite Hfin in Hr'. cbn [db store] in *.
  destruct (enqueued_status m r n s d Hr) as (r'' & Hr'' & Hst).
  congruence.
Qed.

Lemma enqueue_keeps_stored_row_witness :
  let w := with_store (upd_queue [sample "x"] initialState) shown_before in
  db shown_before !! id (sample "a") = Some (sample_row "a" shown 0) ∧
  (∃ r', db (final (enqueue (sample "a") shown_before)) !! "a" = Some r' ∧
         timestamp r' = timestamp (sample_row "a" shown 0) ∧
         queueStatus r' = showing) ∧
  (∃ r', db (final (enqueue (sample "a") w)) !! "a" = Some r' ∧
         timestamp r' = timestamp (sample_row "a" shown 0) ∧
         queueStatus r' = shown).
Proof.
  cbn zeta. split; [reflexivity|]. split.
  - destruct (enqueue_keeps_stored_row (sample "a") (sample_row "a" shown 0)
                shown_before eq_refl) as (r' & Hr' & _ & Ht & _ & _ & _ & Hst).
    exists r'. split; [exact Hr'|]. split; [exact Ht|]. exact (Hst eq_refl).
  - destruct (enqueue_keeps_stored_row (sample "a") (sample_row "a" shown 0)
                (with_store (upd_queue [sample "x"] initialState) shown_before)
                eq_refl) as (r' & Hr' & _ & Ht & _ & _ & _ & Hst).
    exists r'. split; [exact Hr'|]. split; [exact Ht|]. exact (Hst eq_refl).
Defined.

(** C10 as stated fails for [queueStatus]: enqueueing on an idle context a
    message whose row is [shown] shows it again and stores [showing]. *)
Lemma enqueue_rewrites_status :
  queueStatus <$> db shown_before !! "a" = Some shown ∧
  queueStatus <$> db (final (enqueue (sample "a") shown_before)) !! "a"
    ≠ queueStatus <$> db shown_before !! "a".
Proof. split; [reflexivity|]. vm_compute. discriminate. Qed.

(** ** enqueue twice *)

Section counting.
Context (m : MessageType).
Implicit Types (q : list MessageType) (s : QueueState).

Lemma count_id_cons x q :
  count_id (id m) (x :: q) =
  ((if bool_decide (id x = id m) then 1 else 0) + count_id (id m) q)%nat.
Proof.
  unfold count_id. rewrite filter_cons.
  case_decide; case_bool_decide; done.
Qed.

Lemma count_id_app q : count_id (id m) (q ++ [m]) = S (count_id (id m) q).
Proof.
  unfold count_id. rewrite filter_app, length_app.
  rewrite filter_cons_True by done. cbn. lia.
Qed.

Lemma in_queue_count s :
  in_queue m s = bool_decide (0 < count_id (id m) (queue s))%nat.
Proof.
  unfold in_queue. induction (queue s) as [|x q IH]; [done|].
  rewrite count_id_cons. cbn [existsb]. rewrite IH.
  destruct (bool_decide (id x = id m)); cbn [orb Nat.add]; [|done].
  symmetry. apply bool_decide_eq_true. lia.
Qed.

(** The queue [enqueue] works on after its duplicate check. *)
Lemma appended_count s :
  (count_id (id m) (queue s) ≤ 1)%nat →
  count_id (id m)
    (queue (if in_queue m s then s else upd_queue (queue s ++ [m]) s)) = 1%nat.
Proof.
  intros Hle. rewrite in_queue_count. case_bool_decide; cbn [queue upd_queue].
  - lia.
  - rewrite count_id_app. lia.
Qed.

Lemma shown_next_busy s d :
  queue s ≠ [] → isProcessing (shown_next s d).1 = true.
Proof.
  intros Hq. unfold shown_next. destruct (isProcessing s) eqn:Hp; [done|].
  by destruct (queue s).
Qed.

Lemma shown_next_count s d :
  (count_id (id m) (queue (shown_next s d).1) ≤ count_id (id m) (queue s))%nat.
Proof.
  unfold shown_next. destruct (isProcessing s); [done|].
  destruct (queue s) as [|x q] eqn:Hq; cbn [fst queue upd_queue
    upd_isProcessing upd_currentMessage]; [by rewrite Hq|].
  rewrite count_id_cons. lia.
Qed.

Lemma shown_next_row s d :
  is_Some (d !! id m) → is_Some ((shown_next s d).2 !! id m).
Proof.
  intros [r Hr]. unfold shown_next. destruct (isProcessing s); [by eauto|].
  destruct (queue s) as [|x q]; cbn [snd]; [by eauto|].
  set (d' := Table.update (id x) (status_change showing) d).
  assert (is_Some (d' !! id m)) as [r' Hr'].
  { unfold d'. destruct (decide (id x = id m)) as [->|Hne].
    - erewrite update_lookup_eq by done. eauto.
    - rewrite update_lookup_ne by done. eauto. }
  destruct (bulk_lookup_frame (positions q) d' (id m) r' Hr') as (r'' & -> & _).
  eauto.
Qed.

(** After one [enqueue m] on a queue with at most one entry of that id:
    the context is not idle, the row exists, and the queue still has at most
    one such entry - exactly one unless [m] itself was taken out to be
    shown. *)
Lemma enqueued_once n s d :
  (count_id (id m) (queue s) ≤ 1)%nat →
  idle (enqueued m n s d).1 = false ∧
  is_Some ((enqueued m n s d).2 !! id m) ∧
  (count_id (id m) (queue (enqueued m n s d).1) ≤ 1)%nat ∧
  (idle s = false → count_id (id m) (queue (enqueued m n s d).1) = 1%nat).
Proof.
  intros Hle. unfold enqueued.
  pose proof (appended_count s Hle) as Hc.
  set (s2 := if in_queue m s then s else upd_queue (queue s ++ [m]) s) in *.
  set (d1 := if bool_decide (is_Some (d !! id m)) then d
             else Table.put (new_row m n) d).
  set (d2 := if in_queue m s then d1
             else bulk_positions (positions (queue s ++ [m])) d1).
  assert (is_Some (d1 !! id m)) as [r1 Hr1].
  { unfold d1. case_bool_decide; [done|].
    unfold Table.put. cbn. rewrite lookup_insert_eq. eauto. }
  assert (is_Some (d2 !! id m)) as Hd2.
  { unfold d2. destruct (in_queue m s); [by eauto|].
    destruct (bulk_lookup_frame (positions (queue s ++ [m])) d1 (id m) r1 Hr1)
      as (r' & -> & _). eauto. }
  assert (isProcessing s2 = isProcessing s ∧
          currentMessage s2 = currentMessage s) as [Hp2 Hc2].
  { unfold s2. by destruct (in_queue m s). }
  destruct (idle s) eqn:Hidle; cbn [fst snd].
  - split; [|split; [|split]]; try done.
    + unfold idle. rewrite shown_next_busy; [done|].
      intros Hq. rewrite Hq in Hc. done.
    + by apply shown_next_row.
    + pose proof (shown_next_count s2 d2). lia.
  - split; [|split; [|split]]; try done; try lia.
    unfold idle in *. by rewrite Hp2, Hc2.
Qed.

Lemma enqueued_twice n n' s d :
  (count_id (id m) (queue s) ≤ 1)%nat →
  let once := enqueued m n s d in
  let twice := enqueued m n' once.1 once.2 in
  count_id (id m) (queue twice.1) = 1%nat ∧ is_Some (twice.2 !! id m).
Proof.
  intros Hle once twice.
  destruct (enqueued_once n s d Hle) as (Hidle & Hrow & Hle' & _).
  destruct (enqueued_once n' once.1 once.2 Hle') as (_ & Hrow' & _ & Hone).
  split; [by apply Hone | done].
Qed.
End counting.

(** C2, as amended.  From a state whose queue holds at most one entry with
    id [m.id], and with no table call rejected, two calls of [enqueue m],
    the second after the first has completed, both resolve and leave
    exactly one queue entry with that id and a stored row under that id. *)
Theorem enqueue_twice_once (m : MessageType) (w : World) :
  faults w = [] →
  (count_id (id m) (queue (store w)) ≤ 1)%nat →
  let o1 := enqueue m w in
  let o2 := enqueue m (final o1) in
  res o1 = resolved tt ∧ res o2 = resolved tt ∧
  count_id (id m) (queue (store (final o2))) = 1%nat ∧
  is_Some (db (final o2) !! id m).
Proof.
  destruct w as [s d fs n a c mo wt cr]. cbn [store faults]. intros -> Hle.
  cbn zeta.
  destruct (enqueue_final m s d n a c mo wt cr) as [-> ->].
  match goal with |- context [enqueue m (mkWorld ?s' ?d' _ _ _ _ _ _ _)] =>
    destruct (enqueue_final m s' d' n a c mo wt cr) as [-> ->] end.
  split; [done|]. split; [done|]. cbn [store db].
  by apply enqueued_twice.
Qed.

Lemma enqueue_twice_once_witness :
  faults (fresh_world ∅ []) = [] ∧
  (count_id "a" (queue (store (fresh_world ∅ []))) ≤ 1)%nat ∧
  count_id "a"
    (queue (store (final (enqueue (sample "a")
                     (final (enqueue (sample "a") (fresh_world ∅ []))))))) = 1%nat.
Proof.
  split; [reflexivity|]. split; [cbn; lia|].
  apply (enqueue_twice_once (sample "a") (fresh_world ∅ []) eq_refl).
  cbn. lia.
Defined.

(** C2 as stated fails on a busy state whose queue already holds the id
    twice: both calls change nothing and two entries remain. *)
Lemma enqueue_twice_keeps_duplicates :
  ¬ (count_id "a"
       (queue (store (final (enqueue (sample "a")
                        (final (enqueue (sample "a") doubled)))))) = 1%nat ∧
     is_Some (db (final (enqueue (sample "a")
                    (final (enqueue (sample "a") doubled)))) !! "a")).
Proof. intros [H _]. vm_compute in H. discriminate H. Qed.

(** ** Window geometry *)

#[local] Arguments calculateWindowPosition : simpl never.

Lemma calculateWindowPosition_run width height positionConfig w :
  calculateWindowPosition width height positionConfig w =
  mkOut (resolved (expected_position width height positionConfig (monitor w)))
        w [].
Proof.
  unfold calculateWindowPosition, expected_position.
  destruct (positionConfig ≫= wp_x) as [x|], (positionConfig ≫= wp_y) as [y|];
    try reflexivity;
    unfold bind, try_catch, primaryMonitor, screen_size, preset_position;
    destruct (monitor w); cbn;
    destruct (positionConfig ≫= wp_position) as [[]|]; reflexivity.
Qed.

Lemma js_or_cases (v : option float) (dflt : float) :
  match v with
  | None => js_or v dflt = dflt
  | Some q =>
      ((q =? 0)%float = true ∨ is_nan q = true → js_or v dflt = dflt) ∧
      ((q =? 0)%float = false → is_nan q = false → js_or v dflt = q)
  end.
Proof.
  destruct v as [q|]; [|done]. unfold js_or. split.
  - intros [-> | ->]; [done|]. by rewrite orb_true_r.
  - by intros -> ->.
Qed.

(** C9, as amended.  [calculateWindowPosition] returns the explicit
    [(x, y)] when both are given; otherwise, with the padding defaulting to
    20 and the screen to 1920 x 1080 when the monitor is unavailable, the
    corner or centre position of the preset, [right-bottom] when the preset
    is absent, each coordinate being the double that the subtractions and
    the division of the code compute.  The window [createNoticeWindow]
    opens has width [min_width] when that is present and neither zero nor
    [NaN], and [defaultWidth] otherwise (so also for a [min_width] of 0 or
    [NaN]), likewise for the height, and stands at the position computed for
    that size. *)
Theorem window_geometry (m : MessageType) (w : World) :
  id m ∉ activeWindowIds (store w) → webviewThrows w = false →
  (∀ width height positionConfig,
     res (calculateWindowPosition width height positionConfig w) =
     resolved (expected_position width height positionConfig (monitor w))) ∧
  ∃ win, activeWindows (final (createNoticeWindow m w)) !! id m = Some win ∧
    (min_width m = None → win_width win = defaultWidth (config w)) ∧
    (∀ v, min_width m = Some v → (v =? 0)%float = false → is_nan v = false →
          win_width win = v) ∧
    (∀ v, min_width m = Some v → (v =? 0)%float = true ∨ is_nan v = true →
          win_width win = defaultWidth (config w)) ∧
    (min_height m = None → win_height win = defaultHeight (config w)) ∧
    (∀ v, min_height m = Some v → (v =? 0)%float = false → is_nan v = false →
          win_height win = v) ∧
    (∀ v, min_height m = Some v → (v =? 0)%float = true ∨ is_nan v = true →
          win_height win = defaultHeight (config w)) ∧
    (win_x win, win_y win) =
      expected_position (win_width win) (win_height win) (windowPosition m)
        (monitor w).
Proof.
  intros Hactive Hthrows. split.
  { intros. by rewrite calculateWindowPosition_run. }
  unfold createNoticeWindow, isWindowActive, getNoticeConfig,
    try_catch, newWebviewWindow, activeWindows_set, addActiveWindow.
  unfold bind, get.
  cbn [res final events ret].
  rewrite bool_decide_eq_false_2 by done.
  cbn [res final events ret]. rewrite calculateWindowPosition_run.
  cbn [res final events ret]. rewrite Hthrows.
  unfold with_windows. cbn [res final events ret store activeWindows].
  rewrite bool_decide_eq_false_2 by done.
  unfold set, with_store. cbn [res final events ret store activeWindows].
  rewrite lookup_insert_eq. eexists. split; [reflexivity|].
  cbn [win_width win_height win_x win_y].
  pose proof (js_or_cases (min_width m) (defaultWidth (config w))) as Hw.
  pose proof (js_or_cases (min_height m) (defaultHeight (config w))) as Hh.
  split_and!.
  - intros Hn. by rewrite Hn in *.
  - intros v Hv H0 Hnan. rewrite Hv in *. by apply Hw.
  - intros v Hv He. rewrite Hv in *. by apply Hw.
  - intros Hn. by rewrite Hn in *.
  - intros v Hv H0 Hnan. rewrite Hv in *. by apply Hh.
  - intros v Hv He. rewrite Hv in *. by apply Hh.
  - by destruct (expected_position _ _ _ _).
Qed.

Lemma window_geometry_witness :
  (id zero_width ∉ activeWindowIds (store (fresh_world ∅ []))) ∧
  webviewThrows (fresh_world ∅ []) = false ∧
  res (calculateWindowPosition 400 300 None (fresh_world ∅ [])) =
    resolved (1920 - 400 - 20, 1080 - 300 - 20)%float ∧
  res (calculateWindowPosition 18014398509481984 300
         (Some (mkWindowPosition None None (Some right_top) (Some 1%float)))
         (fresh_world ∅ [])) =
    resolved (-18014398509480064, 1)%float.
Proof.
  split; [apply not_elem_of_nil|]. split; [reflexivity|].
  split;
    apply (window_geometry zero_width (fresh_world ∅ []));
    [apply not_elem_of_nil | reflexivity | apply not_elem_of_nil | reflexivity].
Defined.

(** C9 as stated fails for a [min_width] of 0: it is present, yet the
    window gets [defaultWidth]. *)
Lemma zero_width_falls_back :
  win_width <$>
    activeWindows (final (createNoticeWindow zero_width (fresh_world ∅ [])))
      !! id zero_width
  ≠ min_width zero_width.
Proof. vm_compute. discriminate. Qed.

Lemma zero_width_run :
  win_width <$>
    activeWindows (final (createNoticeWindow zero_width (fresh_world ∅ [])))
      !! "z" = Some 400%float.
Proof. vm_compute. reflexivity. Qed.

(** The same holds for a [min_width] of [NaN]. *)
Lemma nan_width_run :
  win_width <$>
    activeWindows
      (final (createNoticeWindow
                {| id := "n"; title := "Notice"; type := "announcement";
                   data := "{}"; min_width := Some nan;
                   min_height := Some 120%float; windowPosition := None |}
                (fresh_world ∅ [])))
      !! "n" = Some 400%float.
Proof. vm_compute. reflexivity. Qed.

(** ** Hiding the message on display *)

(** C6: the run of [hideNotice] on the message on display.  The row is
    marked [hidden], then closing the window fires the [tauri://destroyed]
    listener, whose [markAsShown] overwrites the status: the row ends
    [shown].  The window is closed and its id is released.  Both the
    listener and [hideNotice] call [clearCurrent]: the first makes [m2]
    current, the second clears it again, so no message is current at the
    end although [m2] is stored as [showing]. *)
Theorem hide_showing_ends_shown :
  (currentMessage (store showing_m1) = Some (sample "m1") ∧
   queue (store showing_m1) = [sample "m2"] ∧
   ("m1" ∈ activeWindowIds (store showing_m1)) ∧
   is_Some (activeWindows showing_m1 !! "m1") ∧
   queueStatus <$> db showing_m1 !! "m1" = Some showing) ∧
  (queueStatus <$> db after_hide !! "m1" = Some shown ∧
   activeWindows after_hide !! "m1" = None ∧
   ("m1" ∉ activeWindowIds (store after_hide)) ∧
   currentMessage (store after_hide) = None ∧
   queue (store after_hide) = [] ∧
   queueStatus <$> db after_hide !! "m2" = Some showing).
Proof.
  split.
  - split_and!; try (vm_compute; reflexivity).
    + vm_compute. apply list_elem_of_here.
    + vm_compute. eauto.
  - split_and!; try (vm_compute; reflexivity).
    vm_compute. apply not_elem_of_nil.
Qed.

(** * Further properties *)

(** ** The table helpers of db.ts *)

Section sorting.
Context {A : Type} (le : A → A → bool) (R : A → A → Prop).
Hypothesis le_R : ∀ x y, le x y = true → R x y.
Hypothesis le_total : ∀ x y, le x y = false → R y x.

Lemma insert_sorted_perm x l : insert_sorted le x l ≡ₚ x :: l.
Proof.
  induction l as [|y l IH]; cbn; [done|].
  destruct (le x y); [done|]. rewrite IH. apply Permutation_swap.
Qed.

Lemma stable_sort_perm l : stable_sort le l ≡ₚ l.
Proof.
  induction l as [|x l IH]; cbn; [done|].
  rewrite insert_sorted_perm. by rewrite IH.
Qed.

Lemma insert_sorted_HdRel a x l :
  R a x → HdRel R a l → HdRel R a (insert_sorted le x l).
Proof.
  intros Hax Hl. destruct l as [|y l]; cbn; [by constructor|].
  destruct (le x y); constructor; [done|]. by inversion Hl.
Qed.

Lemma insert_sorted_Sorted x l :
  Sorted R l → Sorted R (insert_sorted le x l).
Proof.
  induction 1 as [|y l Hl IH Hy]; cbn; [by repeat constructor|].
  destruct (le x y) eqn:Hxy.
  - constructor; [by constructor|]. constructor. by apply le_R.
  - constructor; [done|]. apply insert_sorted_HdRel; [|done].
    by apply le_total.
Qed.

Lemma stable_sort_Sorted l : Sorted R (stable_sort le l).
Proof.
  induction l as [|x l IH]; cbn; [constructor|].
  by apply insert_sorted_Sorted.
Qed.
End sorting.

Lemma toArray_perm (d : DB) : Table.toArray d ≡ₚ (map_to_list d).*2.
Proof. unfold Table.toArray. by rewrite stable_sort_perm. Qed.

Lemma sortBy_queuePosition_perm (d : DB) :
  Table.sortBy_queuePosition d ≡ₚ (map_to_list d).*2.
Proof.
  unfold Table.sortBy_queuePosition. by rewrite stable_sort_perm, toArray_perm.
Qed.

Lemma sortBy_queuePosition_Sorted (d : DB) :
  Sorted by_position (Table.sortBy_queuePosition d).
Proof.
  apply stable_sort_Sorted; intros x y H; unfold by_position.
  - by apply Z.leb_le.
  - apply Z.leb_gt in H. lia.
Qed.

Lemma sortBy_queuePosition_elem (d : DB) r :
  r ∈ Table.sortBy_queuePosition d ↔ ∃ k, d !! k = Some r.
Proof.
  rewrite sortBy_queuePosition_perm. rewrite list_elem_of_fmap. split.
  - intros ([k r'] & -> & H). exists k. by apply elem_of_map_to_list in H.
  - intros [k H]. exists (k, r). split; [done|]. by apply elem_of_map_to_list.
Qed.

(** X1.  With no table call rejected, [getPendingMessages] answers the
    rows whose status is [pending], each exactly once, in ascending
    [queuePosition], and leaves the table as it was. *)
Theorem getPendingMessages_sorted (w : World) :
  faults w = [] →
  ∃ rows, res (getPendingMessages w) = resolved rows ∧
    db (final (getPendingMessages w)) = db w ∧
    Sorted by_position rows ∧
    (∀ r, r ∈ rows ↔ ∃ k, db w !! k = Some r ∧ queueStatus r = pending) ∧
    length rows = size (Table.where_queueStatus [pending] (db w)).
Proof.
  destruct w as [s d fs n a c mo wt cr]. cbn [faults]. intros ->.
  unfold getPendingMessages. rewrite table_call_reliable. cbn.
  eexists. split; [reflexivity|]. split; [done|].
  split; [apply sortBy_queuePosition_Sorted|]. split.
  - intros r. rewrite sortBy_queuePosition_elem. split.
    + intros [k Hk]. exists k. rewrite where_queueStatus_lookup in Hk.
      destruct (d !! k) as [r'|]; [|done].
      case_bool_decide as Hs; [|done]. injection Hk as ->.
      split; [done|]. by apply list_elem_of_singleton in Hs.
    + intros (k & Hk & Hs). exists k. rewrite where_queueStatus_lookup, Hk.
      rewrite bool_decide_eq_true_2; [done|]. rewrite Hs. apply list_elem_of_here.
  - rewrite sortBy_queuePosition_perm. rewrite length_fmap.
    by rewrite length_map_to_list.
Qed.

Lemma getPendingMessages_sorted_witness :
  ∃ rows, res (getPendingMessages (fresh_world mixed_table [])) = resolved rows ∧
    db (final (getPendingMessages (fresh_world mixed_table []))) = mixed_table ∧
    Sorted by_position rows ∧
    (∀ r, r ∈ rows ↔ ∃ k, mixed_table !! k = Some r ∧ queueStatus r = pending) ∧
    length rows = size (Table.where_queueStatus [pending] mixed_table).
Proof.
  apply (getPendingMessages_sorted (fresh_world mixed_table [])).
  reflexivity.
Defined.

(** X2.  With no table call rejected, after [saveMessage m] the call
    [getMessage (id m)] answers the row of [m] with the time of the save,
    [isRead = false], [isShown = false], status [pending] and position 0,
    [hasMessage (id m)] answers [true], and the rows under other keys are
    as they were. *)
Theorem saveMessage_getMessage (m : MessageType) (w : World) :
  faults w = [] →
  let w1 := final (saveMessage m w) in
  res (saveMessage m w) = resolved tt ∧
  res (getMessage (id m) w1) = resolved (Some (new_row m (now w))) ∧
  res (hasMessage (id m) w1) = resolved true ∧
  (∀ k, k ≠ id m → db w1 !! k = db w !! k).
Proof.
  destruct w as [s d fs n a c mo wt cr]. cbn [faults]. intros ->. cbn zeta.
  unfold saveMessage, hasMessage, getMessage, bind.
  rewrite !table_call_reliable. cbn.
  unfold Table.get, Table.put. cbn. rewrite lookup_insert_eq.
  split; [done|]. split; [done|]. split; [done|].
  intros k Hk. by rewrite lookup_insert_ne.
Qed.

Lemma saveMessage_getMessage_witness :
  let w1 := final (saveMessage (sample "a") (fresh_world mixed_table [])) in
  res (saveMessage (sample "a") (fresh_world mixed_table [])) = resolved tt ∧
  res (getMessage "a" w1)
    = resolved (Some (new_row (sample "a") "2024-06-01T12:00:00.000Z")) ∧
  res (hasMessage "a" w1) = resolved true ∧
  (∀ k, k ≠ "a" → db w1 !! k = mixed_table !! k).
Proof.
  apply (saveMessage_getMessage (sample "a") (fresh_world mixed_table [])).
  reflexivity.
Defined.

Lemma update_missing k c (d : DB) : d !! k = None → Table.update k c d = d.
Proof.
  intros H. apply map_eq. intros k'. unfold Table.update.
  destruct (decide (k = k')) as [<-|Hne].
  - by rewrite lookup_alter_eq, H.
  - by rewrite lookup_alter_ne.
Qed.

(** X3.  With no table call rejected, [updateQueueStatus], [markAsShown]
    and [markAsHidden] on an id that has no row resolve and leave the table
    as it was: no row is created. *)
Theorem status_update_missing_key (k : string) (status : QueueStatus)
    (w : World) :
  db w !! k = None → faults w = [] →
  (res (updateQueueStatus k status w) = resolved tt ∧
   db (final (updateQueueStatus k status w)) = db w) ∧
  (res (markAsShown k w) = resolved tt ∧
   db (final (markAsShown k w)) = db w) ∧
  (res (markAsHidden k w) = resolved tt ∧
   db (final (markAsHidden k w)) = db w).
Proof.
  destruct w as [s d fs n a c mo wt cr]. cbn [faults db]. intros Hk ->.
  unfold updateQueueStatus, markAsShown, markAsHidden.
  rewrite !table_update_reliable. cbn. by rewrite !update_missing.
Qed.

Lemma status_update_missing_key_witness :
  (res (updateQueueStatus "x" shown (fresh_world mixed_table [])) = resolved tt ∧
   db (final (updateQueueStatus "x" shown (fresh_world mixed_table [])))
     = mixed_table) ∧
  (res (markAsShown "x" (fresh_world mixed_table [])) = resolved tt ∧
   db (final (markAsShown "x" (fresh_world mixed_table []))) = mixed_table) ∧
  (res (markAsHidden "x" (fresh_world mixed_table [])) = resolved tt ∧
   db (final (markAsHidden "x" (fresh_world mixed_table []))) = mixed_table).
Proof.
  apply (status_update_missing_key "x" shown (fresh_world mixed_table [])).
  - reflexivity.
  - reflexivity.
Defined.

(** *** Position updates under rejections *)

Lemma table_call_faults {A} call (run : DB → A * DB) w :
  faults (final (table_call call run w)) = tail (faults w).
Proof.
  unfold table_call. destruct (faults w) as [|[|] fs]; try done;
    by destruct (run (db w)).
Qed.

Lemma table_update_db k c w :
  db (final (table_update k c w)) =
  if bool_decide (head (faults w) = Some true) then db w
  else Table.update k c (db w).
Proof.
  unfold table_update, table_call. by destruct (faults w) as [|[|] fs].
Qed.

Lemma updateQueuePositions_cons p ps w :
  final (updateQueuePositions (p :: ps) w) =
  final (updateQueuePositions ps
           (final (table_update p.1 (position_change p.2) w))).
Proof. reflexivity. Qed.

Lemma updateQueuePositions_other ps w k :
  k ∉ ps.*1 → db (final (updateQueuePositions ps w)) !! k = db w !! k.
Proof.
  revert w. induction ps as [|[k0 p0] ps IH]; intros w Hk; [done|].
  rewrite fmap_cons in Hk. apply not_elem_of_cons in Hk as [Hne Hk].
  rewrite updateQueuePositions_cons, IH by done. cbn [fst snd].
  rewrite table_update_db. case_bool_decide; [done|].
  by rewrite update_lookup_ne.
Qed.

(** X4.  [updateQueuePositions] starts one update per entry, whatever
    happens to the others.  For entries with distinct ids, the row of the
    [i]-th entry ends with the new position unless the [i]-th table call
    is the rejected one, in which case it is as it was: a rejection does
    not stop the updates that follow it. *)
Theorem updateQueuePositions_partial (ps : list (string * Z)) (w : World)
    (i : nat) (k : string) (p : Z) (r : StoredMessage) :
  NoDup ps.*1 → ps !! i = Some (k, p) → db w !! k = Some r →
  db (final (updateQueuePositions ps w)) !! k =
  Some (if bool_decide (faults w !! i = Some true) then r
        else apply_changes (position_change p) r).
Proof.
  revert w i. induction ps as [|[k0 p0] ps IH]; intros w i Hnd Hi Hr; [done|].
  rewrite fmap_cons in Hnd. apply NoDup_cons in Hnd as [Hk0 Hnd]. cbn in Hk0.
  rewrite updateQueuePositions_cons. cbn [fst snd].
  destruct i as [|i]; cbn in Hi.
  - injection Hi as -> ->.
    rewrite updateQueuePositions_other by done. rewrite table_update_db.
    rewrite <- head_lookup.
    case_bool_decide; [done|]. by apply update_lookup_eq.
  - assert (k0 ≠ k) as Hne.
    { intros ->. apply Hk0. apply list_elem_of_fmap. exists (k, p).
      split; [done|]. by eapply list_elem_of_lookup_2. }
    rewrite (IH _ i); [|done..|].
    + unfold table_update. rewrite table_call_faults.
      by rewrite lookup_tail.
    + rewrite table_update_db. case_bool_decide; [done|].
      by rewrite update_lookup_ne.
Qed.

Lemma updateQueuePositions_partial_witness :
  db (final (updateQueuePositions [("p", 5); ("s", 7)]
               (fresh_world mixed_table [true; false]))) !! "s"
    = Some (apply_changes (position_change 7) (sample_row "s" showing 0)) ∧
  db (final (updateQueuePositions [("p", 5); ("s", 7)]
               (fresh_world mixed_table [true; false]))) !! "p"
    = Some (sample_row "p" pending 0).
Proof.
  split.
  - apply (updateQueuePositions_partial [("p", 5); ("s", 7)]
             (fresh_world mixed_table [true; false]) 1 "s" 7
             (sample_row "s" showing 0)).
    + apply (bool_decide_unpack _). reflexivity.
    + reflexivity.
    + reflexivity.
  - apply (updateQueuePositions_partial [("p", 5); ("s", 7)]
             (fresh_world mixed_table [true; false]) 0 "p" 5
             (sample_row "p" pending 0)).
    + apply (bool_decide_unpack _). reflexivity.
    + reflexivity.
    + reflexivity.
Defined.

(** X5.  Whatever table calls are rejected, [updateQueuePositions]
    creates no row, deletes no row, and changes nothing of a row but its
    [queuePosition]. *)
Theorem updateQueuePositions_frame (ps : list (string * Z)) (w : World)
    (k : string) :
  match db w !! k with
  | Some r =>
      ∃ r', db (final (updateQueuePositions ps w)) !! k = Some r' ∧
            same_but_position r r'
  | None => db (final (updateQueuePositions ps w)) !! k = None
  end.
Proof.
  destruct (db w !! k) as [r|] eqn:Hr.
  - assert (on_rows (row_kept k r (eq (queueStatus r)))
              (final (updateQueuePositions ps w))) as (r' & ? & ? & ? & ? & ? & ?).
    { apply preserves_updateQueuePositions; try done.
      - intros w' fs k' p. apply row_kept_position.
      - by apply row_kept_refl. }
    exists r'. by repeat split.
  - assert (on_rows (λ d, d !! k = None) (final (updateQueuePositions ps w))).
    { apply preserves_updateQueuePositions; try done.
      intros w' fs k' p. apply update_lookup_None. }
    done.
Qed.

(** ** clearCurrent under rejected table calls *)

(** X6.  Whatever table calls are rejected, the store that [clearCurrent]
    leaves is fixed by the store it started from: with an empty queue
    nothing is current and [isProcessing] is unset; otherwise the head of
    the queue is current, the rest is the queue and [isProcessing] is set.
    The open windows are not touched. *)
Theorem clearCurrent_advances (w : World) :
  store (final (clearCurrent w)) =
  match queue (store w) with
  | [] => cleared (store w)
  | m :: rest =>
      upd_currentMessage (Some m)
        (upd_isProcessing true (upd_queue rest (cleared (store w))))
  end ∧
  activeWindows (final (clearCurrent w)) = activeWindows w.
Proof.
  split; [apply clearCurrent_store|].
  symmetry.
  by apply (preserves_clearCurrent (λ w', activeWindows w = activeWindows w')).
Qed.

(** ** enqueue on an idle and on a busy context *)

Lemma in_queue_false m s : in_queue m s = false ↔ id m ∉ id <$> queue s.
Proof.
  unfold in_queue. induction (queue s) as [|x q IH]; cbn.
  - split; [intros _; apply not_elem_of_nil|done].
  - rewrite orb_false_iff, IH, not_elem_of_cons, bool_decide_eq_false.
    split; intros [? ?]; split; try done; congruence.
Qed.

Lemma positions_app q m :
  positions (q ++ [m]) = positions q ++ [(id m, Z.of_nat (length q))].
Proof.
  unfold positions. rewrite imap_app. cbn. by rewrite Nat.add_0_r.
Qed.

Lemma bulk_positions_app ps ps' (d : DB) :
  bulk_positions (ps ++ ps') d = bulk_positions ps' (bulk_positions ps d).
Proof. unfold bulk_positions. apply foldl_app. Qed.

Lemma enqueue_idle_store (m : MessageType) (w : World) :
  faults w = [] → at_rest (store w) →
  currentMessage (store (final (enqueue m w))) = Some m ∧
  queue (store (final (enqueue m w))) = [] ∧
  isProcessing (store (final (enqueue m w))) = true.
Proof.
  destruct w as [[q cur p ini ids] d fs n a c mo wt cr].
  cbn [faults store]. intros -> (Hq & Hc & Hp). cbn in Hq, Hc, Hp.
  subst q cur p.
  match goal with |- context [enqueue m (mkWorld ?s _ _ _ _ _ _ _ _)] =>
    destruct (enqueue_final m s d n a c mo wt cr) as [_ ->] end.
  unfold enqueued, in_queue, idle, shown_next. by cbn.
Qed.

(** X7.  With no table call rejected, [enqueue m] on a context with
    nothing queued and nothing shown makes [m] the current message at once:
    the queue stays empty, [isProcessing] is set, and the row of [m] is
    [showing]; when [m] had no row, the row is the freshly saved one with
    only its status changed. *)
Theorem enqueue_idle_shows (m : MessageType) (w : World) :
  faults w = [] → at_rest (store w) →
  let o := enqueue m w in
  res o = resolved tt ∧
  currentMessage (store (final o)) = Some m ∧
  queue (store (final o)) = [] ∧
  isProcessing (store (final o)) = true ∧
  (∃ r, db (final o) !! id m = Some r ∧ queueStatus r = showing) ∧
  (db w !! id m = None →
   db (final o) !! id m = Some (set_status showing (new_row m (now w)))).
Proof.
  destruct w as [[q cur p ini ids] d fs n a c mo wt cr].
  cbn [faults store db now]. intros -> (Hq & Hc & Hp). cbn in Hq, Hc, Hp.
  subst q cur p. cbn zeta.
  match goal with |- context [enqueue m (mkWorld ?s _ _ _ _ _ _ _ _)] =>
    destruct (enqueue_final m s d n a c mo wt cr) as [-> ->] end.
  unfold enqueued, in_queue, idle, shown_next, bulk_positions. cbn.
  split; [done|]. split; [done|]. split; [done|]. split; [done|].
  unfold Table.update. rewrite !lookup_alter_eq.
  case_bool_decide as Hex.
  - split.
    + destruct Hex as [r ->]. cbn. eauto.
    + intros Hn. rewrite Hn in Hex. by destruct Hex.
  - unfold Table.put. cbn. rewrite lookup_insert_eq. cbn. split; [eauto|done].
Qed.

Lemma enqueue_busy_store (m : MessageType) (w : World) :
  faults w = [] → idle (store w) = false →
  id m ∉ id <$> queue (store w) →
  store (final (enqueue m w)) = upd_queue (queue (store w) ++ [m]) (store w).
Proof.
  destruct w as [s d fs n a c mo wt cr]. cbn [faults store].
  intros -> Hidle Hin.
  destruct (enqueue_final m s d n a c mo wt cr) as [_ ->].
  unfold enqueued. rewrite Hidle.
  by rewrite (proj2 (in_queue_false m s)) by done.
Qed.

(** X8.  With no table call rejected, [enqueue m] while [isProcessing] is
    set or there is a current message, for an id that is not queued,
    appends [m] to the queue
    and changes nothing else of the store; the row of [m] gets the index of
    [m] in the queue as its position, and when [m] had no row the row is the
    freshly saved one, still [pending]. *)
Theorem enqueue_busy_appends (m : MessageType) (w : World) :
  faults w = [] → idle (store w) = false →
  id m ∉ id <$> queue (store w) →
  let o := enqueue m w in
  res o = resolved tt ∧
  store (final o) = upd_queue (queue (store w) ++ [m]) (store w) ∧
  (∃ r, db (final o) !! id m = Some r ∧
        queuePosition r = Z.of_nat (length (queue (store w)))) ∧
  (db w !! id m = None →
   db (final o) !! id m =
   Some (apply_changes
           (position_change (Z.of_nat (length (queue (store w)))))
           (new_row m (now w)))).
Proof.
  destruct w as [s d fs n a c mo wt cr]. cbn [faults store db now].
  intros -> Hidle Hin. cbn zeta.
  destruct (enqueue_final m s d n a c mo wt cr) as [-> ->].
  unfold enqueued. rewrite Hidle.
  rewrite (proj2 (in_queue_false m s)) by done. cbn [fst snd store db].
  split; [done|]. split; [done|].
  rewrite positions_app, bulk_positions_app.
  set (d1 := if bool_decide (is_Some (d !! id m)) then d
             else Table.put (new_row m n) d).
  assert (bulk_positions (positions (queue s)) d1 !! id m = d1 !! id m) as Hb.
  { apply bulk_lookup_notin. by rewrite positions_keys. }
  assert (is_Some (d1 !! id m)) as [r1 Hr1].
  { unfold d1. case_bool_decide; [done|].
    unfold Table.put. cbn. rewrite lookup_insert_eq. eauto. }
  assert (bulk_positions [(id m, Z.of_nat (length (queue s)))]
            (bulk_positions (positions (queue s)) d1) !! id m =
          Some (apply_changes
                  (position_change (Z.of_nat (length (queue s)))) r1)) as ->.
  { unfold bulk_positions at 1. cbn [foldl fst snd].
    apply update_lookup_eq. by rewrite Hb. }
  split; [eauto|]. intros Hn.
  assert (r1 = new_row m n) as ->; [|done].
  unfold d1 in Hr1. rewrite bool_decide_eq_false_2 in Hr1.
  - unfold Table.put in Hr1. cbn in Hr1. rewrite lookup_insert_eq in Hr1.
    congruence.
  - rewrite Hn. by intros [? ?].
Qed.

Lemma enqueue_idle_shows_witness :
  let o := enqueue (sample "a") (fresh_world ∅ []) in
  res o = resolved tt ∧
  currentMessage (store (final o)) = Some (sample "a") ∧
  queue (store (final o)) = [] ∧
  isProcessing (store (final o)) = true ∧
  (∃ r, db (final o) !! "a" = Some r ∧ queueStatus r = showing) ∧
  ((∅ : DB) !! "a" = None →
   db (final o) !! "a" =
   Some (set_status showing
           (new_row (sample "a") "2024-06-01T12:00:00.000Z"))).
Proof.
  apply (enqueue_idle_shows (sample "a") (fresh_world ∅ [])).
  - reflexivity.
  - done.
Defined.

Lemma enqueue_busy_appends_witness :
  let w := with_store (first_shown (sample "a"))
             (fresh_world (rows_after_first (sample "a")
                             "2024-06-01T12:00:00.000Z") []) in
  let o := enqueue (sample "b") w in
  res o = resolved tt ∧
  store (final o) = upd_queue [sample "b"] (first_shown (sample "a")) ∧
  (∃ r, db (final o) !! "b" = Some r ∧ queuePosition r = 0) ∧
  (db w !! "b" = None →
   db (final o) !! "b" =
   Some (apply_changes (position_change 0)
           (new_row (sample "b") "2024-06-01T12:00:00.000Z"))).
Proof.
  apply (enqueue_busy_appends (sample "b")
           (with_store (first_shown (sample "a"))
              (fresh_world (rows_after_first (sample "a")
                              "2024-06-01T12:00:00.000Z") []))).
  - reflexivity.
  - reflexivity.
  - cbn. apply not_elem_of_nil.
Defined.

(** ** First in, first out *)

Lemma run_ops_app ops ops' w :
  run_ops (ops ++ ops') w = run_ops ops' (run_ops ops w).
Proof. unfold run_ops. apply foldl_app. Qed.

Lemma enqueue_all_busy (l : list MessageType) (w : World) :
  faults w = [] → idle (store w) = false →
  NoDup (id <$> (queue (store w) ++ l)) →
  let w' := run_ops (op_enqueue <$> l) w in
  faults w' = [] ∧ store w' = upd_queue (queue (store w) ++ l) (store w).
Proof.
  revert w. induction l as [|m l IH]; intros w Hf Hidle Hnd; cbn zeta.
  - cbn. split; [done|]. rewrite app_nil_r. by destruct (store w).
  - cbn [fmap list_fmap run_ops foldl run_op].
    assert (id m ∉ id <$> queue (store w)) as Hin.
    { rewrite fmap_app in Hnd. apply NoDup_app in Hnd as (_ & Hd & _).
      intros H. apply (Hd _ H). cbn. apply list_elem_of_here. }
    pose proof (enqueue_busy_store m w Hf Hidle Hin) as Hs.
    assert (faults (final (enqueue m w)) = []) as Hf'.
    { destruct w as [s d fs n a c mo wt cr]. cbn in Hf. subst fs.
      by destruct (enqueue_final m s d n a c mo wt cr) as [_ ->]. }
    destruct (IH (final (enqueue m w))) as [Hf'' Hs'']; [done| | |].
    + rewrite Hs. unfold idle in *. by cbn.
    + rewrite Hs. cbn. by rewrite <- app_assoc.
    + split; [done|]. fold (run_ops (op_enqueue <$> l) (final (enqueue m w))).
      rewrite Hs'', Hs. cbn. by rewrite <- app_assoc.
Qed.

Lemma run_ops_one o w : run_ops [o] w = final (run_op o w).
Proof. reflexivity. Qed.

Lemma clearCurrent_repeat (k : nat) (w : World) :
  let w' := run_ops (replicate (S k) op_clearCurrent) w in
  currentMessage (store w') = queue (store w) !! k ∧
  queue (store w') = drop (S k) (queue (store w)).
Proof.
  revert w. induction k as [|k IH]; intros w; cbn zeta.
  - cbn [replicate]. rewrite run_ops_one. cbn [run_op].
    rewrite clearCurrent_store.
    destruct (queue (store w)) as [|m rest] eqn:Hq; cbn; by rewrite ?Hq.
  - change (replicate (S (S k)) op_clearCurrent)
      with ([op_clearCurrent] ++ replicate (S k) op_clearCurrent).
    rewrite run_ops_app. destruct (IH (run_ops [op_clearCurrent] w)) as [-> ->].
    rewrite run_ops_one. cbn [run_op]. rewrite clearCurrent_store.
    destruct (queue (store w)) as [|m rest] eqn:Hq; cbn; rewrite ?Hq; [|done].
    by rewrite lookup_nil.
Qed.

(** X9.  With no table call rejected, on a context with nothing queued
    and nothing shown: after the messages [ms], of distinct ids, are
    enqueued in order and [clearCurrent] has then run [k] times, the current
    message is the [k]-th of [ms], and none once [ms] is exhausted. *)
Theorem fifo_order (ms : list MessageType) (k : nat) (w : World) :
  faults w = [] → at_rest (store w) → NoDup (id <$> ms) →
  currentMessage
    (store (run_ops ((op_enqueue <$> ms) ++ replicate k op_clearCurrent) w))
  = ms !! k.
Proof.
  intros Hf Hrest Hnd. rewrite run_ops_app.
  destruct ms as [|m rest].
  - cbn [fmap list_fmap]. change (run_ops [] w) with w.
    destruct Hrest as (Hq & Hc & Hp). destruct k as [|k]; [done|].
    destruct (clearCurrent_repeat k w) as [-> _]. by rewrite Hq.
  - cbn [fmap list_fmap]. change (op_enqueue m :: (op_enqueue <$> rest))
      with ([op_enqueue m] ++ (op_enqueue <$> rest)).
    rewrite run_ops_app. change (run_ops [op_enqueue m] w)
      with (final (enqueue m w)).
    destruct (enqueue_idle_store m w Hf Hrest) as (Hc & Hq & Hp).
    assert (faults (final (enqueue m w)) = []) as Hf'.
    { destruct w as [s d fs n a c mo wt cr]. cbn in Hf. subst fs.
      by destruct (enqueue_final m s d n a c mo wt cr) as [_ ->]. }
    destruct (enqueue_all_busy rest (final (enqueue m w))) as [_ Hs]; [done| | |].
    + unfold idle. by rewrite Hp.
    + rewrite Hq. cbn. rewrite fmap_cons in Hnd.
      by apply NoDup_cons in Hnd as [_ ?].
    + destruct k as [|k].
      * cbn [replicate]. change (run_ops [] ?x) with x. by rewrite Hs.
      * destruct (clearCurrent_repeat k
          (run_ops (op_enqueue <$> rest) (final (enqueue m w)))) as [-> _].
        rewrite Hs, Hq. done.
Qed.

Lemma fifo_order_witness :
  currentMessage
    (store (run_ops ((op_enqueue <$> [sample "a"; sample "b"; sample "c"])
                     ++ replicate 2 op_clearCurrent)
              (fresh_world ∅ [])))
  = Some (sample "c").
Proof.
  apply (fifo_order [sample "a"; sample "b"; sample "c"] 2
           (fresh_world ∅ [])).
  - reflexivity.
  - done.
  - apply (bool_decide_unpack _). reflexivity.
Defined.

(** ** No id is queued twice *)

(** Where [enqueue] can leave the store state, whatever is rejected. *)
Lemma enqueue_store_cases m w :
  let s := store w in
  let s2 := if in_queue m s then s else upd_queue (queue s ++ [m]) s in
  store (final (enqueue m w)) = s ∨
  store (final (enqueue m w)) = s2 ∨
  store (final (enqueue m w)) = next_state s2.
Proof.
  cbn zeta. pattern (store (final (enqueue m w))).
  match goal with |- ?P _ => set (Q := P) end.
  unfold enqueue. unfold bind at 1. cbn [get res final events].
  fold (in_queue m (store w)).
  unfold bind at 1.
  pose proof (hasMessage_store (id m) w) as H1.
  destruct (res (hasMessage (id m) w)) as [b|e]; [|by left].
  set (w1 := final (hasMessage (id m) w)) in *. cbn [final].
  unfold bind at 1.
  assert (store (final ((if negb b then saveMessage m else ret tt) w1))
          = store w) as H2.
  { destruct (negb b); [by rewrite saveMessage_store|done]. }
  destruct (res ((if negb b then saveMessage m else ret tt) w1));
    [|by left].
  set (w2 := final ((if negb b then saveMessage m else ret tt) w1)) in *.
  cbn [final]. unfold bind at 1.
  destruct (in_queue m (store w)) eqn:Hin; cbn [negb ret res final events].
  - destruct (_ && _); cbn [ret final].
    + right. right. by rewrite showNext_store, H2.
    + by left.
  - set (s2 := upd_queue (queue (store w) ++ [m]) (store w)).
    assert (store (final ((set (upd_queue (queue (store w) ++ [m]))
                            >> persistQueue) w2)) = s2) as H3.
    { unfold bind, set. cbn. rewrite persistQueue_store. cbn.
      unfold s2. by rewrite H2. }
    destruct (res ((set (upd_queue (queue (store w) ++ [m]))
                      >> persistQueue) w2)); [|by right; left].
    cbn [final]. destruct (_ && _); cbn [ret final].
    + right. right. by rewrite showNext_store, H3.
    + by right; left.
Qed.

Lemma next_state_queue s :
  queue (next_state s) = queue s ∨ queue (next_state s) = tail (queue s).
Proof.
  unfold next_state. destruct (isProcessing s); [by left|].
  destruct (queue s) eqn:Hq; cbn; [left|right]; by rewrite ?Hq.
Qed.

Lemma NoDup_ids_tail (q : list MessageType) :
  NoDup (id <$> q) → NoDup (id <$> tail q).
Proof. destruct q; [done|]. cbn. by intros [_ ?]%NoDup_cons. Qed.

Lemma next_state_NoDup s :
  NoDup (id <$> queue s) → NoDup (id <$> queue (next_state s)).
Proof.
  intros H. destruct (next_state_queue s) as [-> | ->];
    [done | by apply NoDup_ids_tail].
Qed.

Lemma enqueue_NoDup m w :
  NoDup (id <$> queue (store w)) →
  NoDup (id <$> queue (store (final (enqueue m w)))).
Proof.
  intros Hnd.
  assert (NoDup (id <$> queue (if in_queue m (store w) then store w
            else upd_queue (queue (store w) ++ [m]) (store w)))) as H2.
  { destruct (in_queue m (store w)) eqn:Hin; [done|]. cbn.
    rewrite fmap_app. apply NoDup_app. split; [done|]. split.
    - intros x Hx Hx'. cbn in Hx'. apply list_elem_of_singleton in Hx'.
      subst x. by apply in_queue_false in Hin.
    - cbn. apply NoDup_singleton. }
  destruct (enqueue_store_cases m w) as [-> | [-> | ->]]; try done.
  by apply next_state_NoDup.
Qed.

(** The table stays keyed by id. *)
Lemma keyed_update k c d : keyed d → keyed (Table.update k c d).
Proof.
  intros H k' r. unfold Table.update. destruct (decide (k = k')) as [<-|Hne].
  - rewrite lookup_alter_eq. destruct (d !! k) as [r0|] eqn:Hr0; [|done].
    cbn. intros [= <-]. cbn. by apply H.
  - rewrite lookup_alter_ne by done. apply H.
Qed.

Lemma keyed_put r d : keyed d → keyed (Table.put r d).
Proof.
  intros H k r'. unfold Table.put. destruct (decide (id r = k)) as [<-|Hne].
  - rewrite lookup_insert_eq. by intros [= <-].
  - rewrite lookup_insert_ne by done. apply H.
Qed.

Lemma keyed_filter (P : string * StoredMessage → Prop)
    `{∀ x, Decision (P x)} (d : DB) :
  keyed d → keyed (filter P d).
Proof.
  intros Hk k r Hr. apply map_lookup_filter_Some in Hr as [Hr _].
  by apply Hk.
Qed.

Lemma keyed_position w fs k p :
  on_rows keyed w →
  on_rows keyed (with_db (Table.update k (position_change p) (db w)) fs w).
Proof. apply keyed_update. Qed.

Lemma keyed_showing w fs k :
  on_rows keyed w →
  on_rows keyed (with_db (Table.update k (status_change showing) (db w)) fs w).
Proof. apply keyed_update. Qed.

Lemma keyed_showNext : preserves (on_rows keyed) showNext.
Proof.
  apply preserves_showNext; auto using keyed_position, keyed_showing.
Qed.

Lemma keyed_enqueue m : preserves (on_rows keyed) (enqueue m).
Proof.
  apply preserves_bind; [apply preserves_get|intros state].
  apply preserves_bind.
  { apply preserves_bind; [by apply preserves_read|].
    intros ?; apply preserves_ret. }
  intros b. apply preserves_bind.
  { apply preserves_if; [|apply preserves_ret].
    intros w. unfold saveMessage. apply preserves_table_call; [done|].
    intros w' fs. apply keyed_put. }
  intros _. apply preserves_bind.
  { apply preserves_append; auto using keyed_position. }
  intros _. apply preserves_if; [apply keyed_showNext|apply preserves_ret].
Qed.

Lemma keyed_initializeFromDatabase :
  preserves (on_rows keyed) initializeFromDatabase.
Proof.
  apply preserves_bind; [apply preserves_get|intros state].
  apply preserves_if; [apply preserves_ret|].
  apply preserves_bind; [by intros w|intros _].
  apply preserves_bind; [by apply preserves_read|intros rows].
  apply preserves_if; [|apply preserves_ret].
  apply preserves_bind; [by intros w|intros _; apply keyed_showNext].
Qed.

Lemma keyed_run_op o : preserves (on_rows keyed) (run_op o).
Proof.
  destruct o; cbn [run_op].
  - apply keyed_enqueue.
  - apply keyed_showNext.
  - apply preserves_clearCurrent; auto using keyed_position, keyed_showing.
  - apply keyed_initializeFromDatabase.
  - apply preserves_bind; [by intros w|intros _].
    apply preserves_table_call; [done|]. intros w fs. by apply keyed_filter.
  - by intros w.
  - by intros w.
Qed.

(** The rows [getPendingMessages] answers have distinct ids. *)
Lemma pending_ids_NoDup (d : DB) :
  keyed d →
  NoDup (id <$> (message <$>
    Table.sortBy_queuePosition (Table.where_queueStatus [pending] d))).
Proof.
  intros Hk. set (d' := Table.where_queueStatus [pending] d).
  assert (keyed d') as Hk' by by apply keyed_filter.
  rewrite <- list_fmap_compose. rewrite sortBy_queuePosition_perm.
  rewrite <- list_fmap_compose.
  assert ((id ∘ message ∘ snd) <$> map_to_list d' = (map_to_list d').*1) as ->.
  { apply list_fmap_ext. intros i [k r] Hi. cbn. apply Hk'.
    apply elem_of_map_to_list. by eapply list_elem_of_lookup_2. }
  apply NoDup_fst_map_to_list.
Qed.

Lemma initializeFromDatabase_NoDup w :
  queue_sound w →
  NoDup (id <$> queue (store (final (initializeFromDatabase w)))).
Proof.
  intros [Hnd Hk]. pose proof (pending_ids_NoDup (db w) Hk) as Hrows.
  unfold initializeFromDatabase, bind, get, set. cbn.
  destruct (initialized (store w)); [done|]. cbn.
  unfold getPendingMessages, table_call. cbn.
  destruct (faults w) as [|[|] fs]; cbn; try done;
    (destruct (Table.sortBy_queuePosition _); cbn; [done|]);
    rewrite showNext_store; by apply next_state_NoDup.
Qed.

Lemma run_op_NoDup o w :
  queue_sound w → NoDup (id <$> queue (store (final (run_op o w)))).
Proof.
  intros Hs. pose proof Hs as [Hnd Hk]. destruct o; cbn [run_op].
  - by apply enqueue_NoDup.
  - rewrite showNext_store. by apply next_state_NoDup.
  - rewrite clearCurrent_store.
    destruct (queue (store w)) as [|m rest] eqn:Hq; cbn; rewrite ?Hq; [done|].
    cbn in Hnd. by apply NoDup_cons in Hnd as [_ ?].
  - by apply initializeFromDatabase_NoDup.
  - unfold clearOnLogout, clearPendingMessages, bind, set. cbn.
    match goal with |- context [table_call ?c ?r ?w'] =>
      pose proof (table_call_store c r w') as Hst;
      destruct (res (table_call c r w')) end; cbn; rewrite Hst; cbn;
      apply NoDup_nil_2.
  - done.
  - done.
Qed.

(** X10.  From a context whose queue holds no id twice, over a table in
    which every row sits under its own id, no sequence of [enqueue],
    [showNext], [clearCurrent], [initializeFromDatabase], [clearOnLogout],
    [setCurrentMessage] and [setIsProcessing], whatever table calls are
    rejected, leads to a queue that holds an id twice or to a row that sits
    under another id than its own. *)
Theorem queue_never_duplicates (ops : list Op) (w : World) :
  queue_sound w → queue_sound (run_ops ops w).
Proof.
  revert w. induction ops as [|o ops IH]; intros w Hs; [done|].
  apply (IH (final (run_op o w))). split.
  - by apply run_op_NoDup.
  - apply keyed_run_op. apply Hs.
Qed.

Lemma queue_never_duplicates_witness :
  queue_sound (fresh_world mixed_table [false; true]) ∧
  queue_sound
    (run_ops [op_initializeFromDatabase; op_enqueue (sample "p");
              op_clearCurrent]
       (fresh_world mixed_table [false; true])).
Proof.
  assert (queue_sound (fresh_world mixed_table [false; true])) as H.
  { split; [apply NoDup_nil_2|].
    intros k r Hr. unfold mixed_table, Table.put in Hr. cbn in Hr.
    repeat (apply lookup_insert_Some in Hr as [[<- <-]|[_ Hr]]; [done|]).
    done. }
  split; [exact H|]. apply queue_never_duplicates, H.
Defined.

(** ** initializeFromDatabase *)

Lemma next_state_initialized s : initialized (next_state s) = initialized s.
Proof.
  unfold next_state. destruct (isProcessing s); [done|].
  by destruct (queue s).
Qed.

(** X11.  Whatever table calls are rejected, [initializeFromDatabase]
    leaves [initialized] set, and a further call does nothing at all: no
    table call, no change of the store. *)
Theorem initializeFromDatabase_once (w : World) :
  let w1 := final (initializeFromDatabase w) in
  initialized (store w1) = true ∧
  initializeFromDatabase w1 = mkOut (resolved tt) w1 [].
Proof.
  cbn zeta.
  assert (initialized (store (final (initializeFromDatabase w))) = true) as H.
  { unfold initializeFromDatabase, bind, get, set. cbn.
    destruct (initialized (store w)) eqn:Hi; [done|]. cbn.
    unfold getPendingMessages, table_call. cbn.
    destruct (faults w) as [|[|] fs]; cbn; try done;
      (destruct (Table.sortBy_queuePosition _); cbn; [done|]);
      by rewrite showNext_store, next_state_initialized. }
  split; [done|]. revert H.
  generalize (final (initializeFromDatabase w)). intros w1 H.
  unfold initializeFromDatabase, bind, get. cbn. by rewrite H.
Qed.

(** X12.  With no table call rejected, [initializeFromDatabase] on a
    context that is not initialized and shows nothing: with no [pending]
    row it only sets [initialized]; otherwise the first [pending] row by
    position becomes the current message, the others the queue in that
    order, and [isProcessing] is set. *)
Theorem initializeFromDatabase_loads (w : World) (rows : list StoredMessage) :
  faults w = [] → initialized (store w) = false →
  isProcessing (store w) = false →
  res (getPendingMessages w) = resolved rows →
  let o := initializeFromDatabase w in
  res o = resolved tt ∧
  match rows with
  | [] => store (final o) = upd_initialized true (store w)
  | r :: rest =>
      currentMessage (store (final o)) = Some (message r) ∧
      queue (store (final o)) = message <$> rest ∧
      isProcessing (store (final o)) = true
  end.
Proof.
  destruct w as [s d fs n a c mo wt cr]. cbn [faults store]. intros -> Hi Hp.
  unfold getPendingMessages. rewrite table_call_reliable. cbn [res fst].
  intros [= <-]. cbn zeta.
  unfold initializeFromDatabase, bind, get, set, getPendingMessages.
  cbn. rewrite Hi. cbn.
  destruct (Table.sortBy_queuePosition _) as [|r rest]; cbn; [done|].
  unfold with_store. cbn.
  match goal with |- context [showNext (mkWorld ?s' ?d' _ _ _ _ _ _ _)] =>
    destruct (showNext_final s' d' n a c mo wt cr) as [-> ->] end.
  unfold shown_next. cbn. by rewrite Hp.
Qed.

Lemma initializeFromDatabase_loads_witness :
  let o := initializeFromDatabase (fresh_world mixed_table []) in
  res o = resolved tt ∧
  currentMessage (store (final o)) = Some (sample "p") ∧
  queue (store (final o)) = [] ∧
  isProcessing (store (final o)) = true.
Proof.
  apply (initializeFromDatabase_loads (fresh_world mixed_table [])
           [sample_row "p" pending 0]).
  - reflexivity.
  - reflexivity.
  - reflexivity.
  - reflexivity.
Defined.

(** ** A rejected status write *)

(** X13.  When the status update of [showNext] is rejected, the promise
    rejects with that update, but the store has already advanced: the head
    of the queue is the current message, [isProcessing] is set, the rest is
    the queue; no row has changed, and a further [showNext] leaves the store
    as it is. *)
Theorem showNext_rejected_status (w : World) (m : MessageType)
    (rest : list MessageType) (fs : list bool) :
  isProcessing (store w) = false → queue (store w) = m :: rest →
  faults w = true :: fs →
  let o := showNext w in
  res o = rejected (store_rejected (call_update (id m) (status_change showing)))
  ∧ currentMessage (store (final o)) = Some m
  ∧ isProcessing (store (final o)) = true
  ∧ queue (store (final o)) = rest
  ∧ db (final o) = db w
  ∧ store (final (showNext (final o))) = store (final o).
Proof.
  intros Hp Hq Hf. cbn zeta.
  assert (store (final (showNext w)) =
          upd_currentMessage (Some m)
            (upd_isProcessing true (upd_queue rest (store w)))) as Hs.
  { rewrite showNext_store. unfold next_state. by rewrite Hp, Hq. }
  rewrite (showNext_store (final (showNext w))). rewrite Hs.
  split_and!; try done.
  - unfold showNext, dequeue, bind, emit, get, set. cbn. rewrite Hp. cbn.
    rewrite Hq. cbn. unfold updateQueueStatus, table_update, table_call.
    cbn. by rewrite Hf.
  - unfold showNext, dequeue, bind, emit, get, set. cbn. rewrite Hp. cbn.
    rewrite Hq. cbn. unfold updateQueueStatus, table_update, table_call.
    cbn. by rewrite Hf.
Qed.

Lemma showNext_rejected_status_witness :
  let o := showNext one_queued_failing in
  res o = rejected (store_rejected
                      (call_update "a" (status_change showing))) ∧
  currentMessage (store (final o)) = Some (sample "a") ∧
  isProcessing (store (final o)) = true ∧
  queue (store (final o)) = [] ∧
  db (final o) = db one_queued_failing ∧
  store (final (showNext (final o))) = store (final o).
Proof.
  apply (showNext_rejected_status one_queued_failing (sample "a") [] []).
  - reflexivity.
  - reflexivity.
  - reflexivity.
Defined.

#[local] Arguments clearCurrent : simpl never.

(** ** The set of active window ids *)

Lemma addActiveWindow_elem (k : string) (w : World) (j : string) :
  j ∈ activeWindowIds (store (final (addActiveWindow k w)))
  ↔ j = k ∨ j ∈ activeWindowIds (store w).
Proof.
  unfold addActiveWindow, bind, get, set. cbn.
  case_bool_decide as Hk; cbn.
  - split; [by right|]. by intros [->|?].
  - rewrite elem_of_app, list_elem_of_singleton. tauto.
Qed.

Lemma removeActiveWindow_elem (k : string) (w : World) (j : string) :
  j ∈ activeWindowIds (store (final (removeActiveWindow k w)))
  ↔ j ≠ k ∧ j ∈ activeWindowIds (store w).
Proof.
  unfold removeActiveWindow, bind, get, set. cbn.
  by rewrite list_elem_of_filter.
Qed.

(** X14.  [activeWindowIds] behaves as a set: after [addActiveWindow k]
    the ids are [k] and those that were there, after [removeActiveWindow k]
    they are those that were there other than [k]; [isWindowActive k]
    answers [true] after the one and [false] after the other. *)
Theorem activeWindowIds_set (k : string) (w : World) :
  let added := final (addActiveWindow k w) in
  let removed := final (removeActiveWindow k w) in
  (∀ j, j ∈ activeWindowIds (store added)
        ↔ j = k ∨ j ∈ activeWindowIds (store w)) ∧
  (∀ j, j ∈ activeWindowIds (store removed)
        ↔ j ≠ k ∧ j ∈ activeWindowIds (store w)) ∧
  res (isWindowActive k added) = resolved true ∧
  res (isWindowActive k removed) = resolved false.
Proof.
  cbn zeta.
  split; [apply addActiveWindow_elem|].
  split; [apply removeActiveWindow_elem|]. split.
  - unfold isWindowActive, bind, get. cbn. f_equal.
    apply bool_decide_eq_true. apply addActiveWindow_elem. by left.
  - unfold isWindowActive, bind, get. cbn. f_equal.
    apply bool_decide_eq_false.
    intros H. by apply removeActiveWindow_elem in H as [? _].
Qed.

(** X15.  A list of active ids without repetition stays without
    repetition under [addActiveWindow] and [removeActiveWindow]: adding an
    id that is already active changes nothing. *)
Theorem activeWindowIds_NoDup (k : string) (w : World) :
  NoDup (activeWindowIds (store w)) →
  NoDup (activeWindowIds (store (final (addActiveWindow k w)))) ∧
  NoDup (activeWindowIds (store (final (removeActiveWindow k w)))) ∧
  (k ∈ activeWindowIds (store w) →
   store (final (addActiveWindow k w)) = store w).
Proof.
  intros Hnd. split; [|split].
  - unfold addActiveWindow, bind, get, set. cbn.
    case_bool_decide as Hk; cbn; [done|].
    apply NoDup_app. split; [done|]. split; [|apply NoDup_singleton].
    intros x Hx ->%list_elem_of_singleton. done.
  - unfold removeActiveWindow, bind, get, set. cbn. by apply NoDup_filter.
  - intros Hk. unfold addActiveWindow, bind, get, set. cbn.
    by rewrite bool_decide_eq_true_2.
Qed.

Lemma activeWindowIds_NoDup_witness :
  let w := with_store (upd_activeWindowIds ["a"; "b"] initialState)
             (fresh_world ∅ []) in
  NoDup (activeWindowIds (store (final (addActiveWindow "a" w)))) ∧
  NoDup (activeWindowIds (store (final (removeActiveWindow "a" w)))) ∧
  ("a" ∈ activeWindowIds (store w) →
   store (final (addActiveWindow "a" w)) = store w).
Proof.
  apply (activeWindowIds_NoDup "a"
           (with_store (upd_activeWindowIds ["a"; "b"] initialState)
              (fresh_world ∅ []))).
  apply (bool_decide_unpack _). reflexivity.
Defined.

(** ** Opening a window *)

Lemma bind_pure {A B} (c : M A) (k : A → M B) w a :
  c w = mkOut (resolved a) w [] → bind c k w = k a w.
Proof. intros H. unfold bind. rewrite H. cbn. by destruct (k a w). Qed.

Lemma isWindowActive_run k w :
  isWindowActive k w =
  mkOut (resolved (bool_decide (k ∈ activeWindowIds (store w)))) w [].
Proof. reflexivity. Qed.

Lemma createNoticeWindow_active m w :
  id m ∈ activeWindowIds (store w) →
  createNoticeWindow m w = mkOut (resolved tt) w [].
Proof.
  intros Hactive. unfold createNoticeWindow.
  erewrite bind_pure by apply isWindowActive_run.
  by rewrite bool_decide_eq_true_2.
Qed.

(** Past the activity check, [createNoticeWindow] is its [try] block. *)
Lemma createNoticeWindow_body m w :
  id m ∉ activeWindowIds (store w) →
  createNoticeWindow m w =
  try_catch
    (let* noticeWindow := newWebviewWindow (notice_window m w) in
     activeWindows_set (id m) noticeWindow >> addActiveWindow (id m))
    (λ _, removeActiveWindow (id m) >> clearCurrent) w.
Proof.
  intros Hactive. unfold createNoticeWindow.
  erewrite bind_pure by apply isWindowActive_run.
  rewrite bool_decide_eq_false_2 by done.
  erewrite bind_pure by reflexivity.
  erewrite bind_pure by apply calculateWindowPosition_run.
  reflexivity.
Qed.

Lemma createNoticeWindow_opens m w :
  id m ∉ activeWindowIds (store w) → webviewThrows w = false →
  res (createNoticeWindow m w) = resolved tt ∧
  activeWindows (final (createNoticeWindow m w))
    = <[id m := notice_window m w]> (activeWindows w) ∧
  store (final (createNoticeWindow m w))
    = upd_activeWindowIds (activeWindowIds (store w) ++ [id m]) (store w).
Proof.
  intros Hactive Hthrows. rewrite createNoticeWindow_body by done.
  unfold try_catch, newWebviewWindow, activeWindows_set, addActiveWindow.
  unfold bind, get, set. cbn. rewrite Hthrows. cbn.
  by rewrite bool_decide_eq_false_2.
Qed.

(** X16.  When the webview can be created, after [createNoticeWindow m]
    the id of [m] is active, and a second [createNoticeWindow m] does
    nothing at all: no second window, no change of the store. *)
Theorem createNoticeWindow_idempotent (m : MessageType) (w : World) :
  webviewThrows w = false →
  let w1 := final (createNoticeWindow m w) in
  (id m ∈ activeWindowIds (store w1)) ∧
  createNoticeWindow m w1 = mkOut (resolved tt) w1 [].
Proof.
  intros Hthrows. cbn zeta.
  assert (id m ∈ activeWindowIds (store (final (createNoticeWindow m w))))
    as Hin.
  { destruct (decide (id m ∈ activeWindowIds (store w))) as [Hin|Hnot].
    - by rewrite createNoticeWindow_active.
    - destruct (createNoticeWindow_opens m w) as (_ & _ & ->); [done..|].
      apply elem_of_app. right. apply list_elem_of_here. }
  split; [done|]. by apply createNoticeWindow_active.
Qed.

Lemma createNoticeWindow_idempotent_witness :
  let w1 := final (createNoticeWindow (sample "a") (fresh_world ∅ [])) in
  ("a" ∈ activeWindowIds (store w1)) ∧
  createNoticeWindow (sample "a") w1 = mkOut (resolved tt) w1 [].
Proof.
  apply (createNoticeWindow_idempotent (sample "a") (fresh_world ∅ [])).
  reflexivity.
Defined.

(** ** Closing a window *)

Lemma showNext_windows w : activeWindows (final (showNext w)) = activeWindows w.
Proof.
  symmetry.
  by apply (preserves_showNext (λ w', activeWindows w = activeWindows w')).
Qed.

Lemma clearCurrent_windows w :
  activeWindows (final (clearCurrent w)) = activeWindows w.
Proof.
  symmetry.
  by apply (preserves_clearCurrent (λ w', activeWindows w = activeWindows w')).
Qed.

Lemma showNext_other_ids w :
  activeWindowIds (store (final (showNext w))) = activeWindowIds (store w).
Proof. rewrite showNext_store. unfold next_state.
  destruct (isProcessing (store w)); [done|]. by destruct (queue (store w)).
Qed.

Lemma clearCurrent_ids w :
  activeWindowIds (store (final (clearCurrent w))) = activeWindowIds (store w).
Proof. rewrite clearCurrent_store. by destruct (queue (store w)). Qed.

(** X18.  When [markAsShown] is rejected in the [destroyed] listener, the
    listener rejects with that update after it has released the window and
    its id, and [clearCurrent] does not run: the current message,
    [isProcessing], the queue and the rows are as before.  The [close()]
    that fired the listener still resolves. *)
Theorem on_destroyed_rejected (k : string) (w : World) (fs : list bool) :
  faults w = true :: fs →
  let o := on_destroyed k w in
  res o = rejected (store_rejected (call_update k shown_change)) ∧
  activeWindows (final o) !! k = None ∧
  (k ∉ activeWindowIds (store (final o))) ∧
  currentMessage (store (final o)) = currentMessage (store w) ∧
  isProcessing (store (final o)) = isProcessing (store w) ∧
  queue (store (final o)) = queue (store w) ∧
  db (final o) = db w ∧
  res (window_close k w) = resolved tt.
Proof.
  intros Hf. cbn zeta.
  unfold window_close, spawn, on_destroyed, activeWindows_delete,
    removeActiveWindow, markAsShown, table_update, table_call.
  unfold bind, emit, get, set. cbn. rewrite Hf. cbn.
  split_and!; try done.
  - apply lookup_delete_eq.
  - rewrite list_elem_of_filter. by intros [? _].
Qed.

Lemma on_destroyed_rejected_witness :
  let w := with_store (first_shown (sample "a"))
             (fresh_world (rows_after_first (sample "a")
                             "2024-06-01T12:00:00.000Z") [true]) in
  let o := on_destroyed "a" w in
  res o = rejected (store_rejected (call_update "a" shown_change)) ∧
  activeWindows (final o) !! "a" = None ∧
  ("a" ∉ activeWindowIds (store (final o))) ∧
  currentMessage (store (final o)) = Some (sample "a") ∧
  isProcessing (store (final o)) = true ∧
  queue (store (final o)) = [] ∧
  db (final o) = rows_after_first (sample "a") "2024-06-01T12:00:00.000Z" ∧
  res (window_close "a" w) = resolved tt.
Proof.
  apply (on_destroyed_rejected "a"
           (with_store (first_shown (sample "a"))
              (fresh_world (rows_after_first (sample "a")
                              "2024-06-01T12:00:00.000Z") [true])) []).
  reflexivity.
Defined.

Lemma closeNoticeWindow_unknown k w :
  activeWindows w !! k = None →
  closeNoticeWindow k w = mkOut (resolved tt) w [].
Proof.
  intros Hk. unfold closeNoticeWindow, activeWindows_get, bind.
  cbn. by rewrite Hk.
Qed.

Lemma final_bind {A B} (c : M A) (k : A → M B) w a w' evs :
  c w = mkOut (resolved a) w' evs → final (bind c k w) = final (k a w').
Proof. intros H. unfold bind. by rewrite H. Qed.

Lemma res_bind {A B} (c : M A) (k : A → M B) w a w' evs :
  c w = mkOut (resolved a) w' evs → res (bind c k w) = res (k a w').
Proof. intros H. unfold bind. by rewrite H. Qed.

(** The listener when [markAsShown] succeeds: the window and its id are
    released, the row is marked, and [clearCurrent] runs. *)
Lemma on_destroyed_reliable k s d n a c mo wt cr :
  let w' := mkWorld
              (upd_activeWindowIds
                 (filter (λ wid, wid ≠ k) (activeWindowIds s)) s)
              (Table.update k shown_change d) [] n (delete k a) c mo wt cr in
  final (on_destroyed k (mkWorld s d [] n a c mo wt cr)) = final (clearCurrent w')
  ∧ res (on_destroyed k (mkWorld s d [] n a c mo wt cr)) = resolved tt.
Proof.
  cbn zeta. unfold on_destroyed.
  split.
  - erewrite final_bind by reflexivity.
    erewrite final_bind by reflexivity.
    erewrite final_bind by reflexivity.
    reflexivity.
  - erewrite res_bind by reflexivity.
    erewrite res_bind by reflexivity.
    erewrite res_bind by reflexivity.
    apply clearCurrent_resolves.
Qed.

Lemma try_catch_resolved {A} (c : M A) (h : Error → M A) w a :
  res (c w) = resolved a → try_catch c h w = c w.
Proof. intros H. unfold try_catch. by rewrite H. Qed.

(** X19.  With no table call rejected and a [close()] that succeeds,
    [closeNotice] of [useCloseNotice], for a current message [m] whose
    window is open, whose row exists and whose id is not queued: the window
    and its id are released, the row of [m] becomes [shown] with [isShown]
    set and is otherwise as it was, and the head of the queue becomes the
    current message. *)
Theorem closeNotice_advances (m : MessageType) (r : StoredMessage)
    (w : World) :
  faults w = [] →
  closeRejects w = false →
  is_Some (activeWindows w !! id m) →
  db w !! id m = Some r →
  id m ∉ id <$> queue (store w) →
  let o := closeNotice (Some m) w in
  res o = resolved tt ∧
  activeWindows (final o) !! id m = None ∧
  (id m ∉ activeWindowIds (store (final o))) ∧
  db (final o) !! id m = Some (apply_changes shown_change r) ∧
  currentMessage (store (final o)) = head (queue (store w)) ∧
  queue (store (final o)) = tail (queue (store w)).
Proof.
  destruct w as [s d fs n a c mo wt cr].
  cbn [faults closeRejects activeWindows db store].
  intros -> -> [win Hwin] Hr Hq. cbn zeta.
  destruct (on_destroyed_reliable (id m) s d n a c mo wt false) as [Hfin Hres].
  set (w' := mkWorld
               (upd_activeWindowIds
                  (filter (λ wid, wid ≠ id m) (activeWindowIds s)) s)
               (Table.update (id m) shown_change d) [] n (delete (id m) a)
               c mo wt false) in *.
  assert (res (closeNotice (Some m) (mkWorld s d [] n a c mo wt false))
            = resolved tt ∧
          final (closeNotice (Some m) (mkWorld s d [] n a c mo wt false))
            = with_windows (delete (id m) (activeWindows (final (clearCurrent w'))))
                (final (clearCurrent w'))) as [-> ->].
  { assert (activeWindows_get (id m) (mkWorld s d [] n a c mo wt false) =
            mkOut (resolved (Some win)) (mkWorld s d [] n a c mo wt false) [])
      as Hget.
    { unfold activeWindows_get. cbn. by rewrite Hwin. }
    assert (window_close_call (id m) (mkWorld s d [] n a c mo wt false) =
            mkOut (resolved tt)
              (final (on_destroyed (id m) (mkWorld s d [] n a c mo wt false)))
              (ev_window_closed (id m)
                 :: events (on_destroyed (id m)
                              (mkWorld s d [] n a c mo wt false))))
      as Hclose by reflexivity.
    assert (res ((window_close_call (id m) >> activeWindows_delete (id m))
                   (mkWorld s d [] n a c mo wt false)) = resolved tt) as Hok.
    { by erewrite res_bind by exact Hclose. }
    unfold closeNotice, closeNoticeWindow. split.
    - erewrite res_bind by exact Hget. cbv beta iota.
      by rewrite (try_catch_resolved _ _ _ _ Hok).
    - erewrite final_bind by exact Hget. cbv beta iota.
      rewrite (try_catch_resolved _ _ _ _ Hok).
      erewrite final_bind by exact Hclose. by rewrite Hfin. }
  pose proof (clearCurrent_store w') as Hs.
  pose proof (clearCurrent_windows w') as Ha.
  assert (db (final (clearCurrent w')) !! id m =
          Some (apply_changes shown_change r)) as Hd.
  { unfold clearCurrent, bind, set, get, spawn. cbn.
    destruct (queue s) as [|x q] eqn:Hqs; cbn.
    - by apply update_lookup_eq.
    - unfold with_store. cbn.
      match goal with |- context [showNext (mkWorld ?s' ?d' _ _ ?a' _ _ _ _)] =>
        destruct (showNext_final s' d' n a' c mo wt false) as [_ ->] end.
      unfold shown_next. cbn -[bulk_positions Table.update positions].
      rewrite Hqs. cbn [snd].
      rewrite bulk_lookup_notin.
      2:{ rewrite positions_keys. cbn in Hq.
          by apply not_elem_of_cons in Hq as [_ ?]. }
      rewrite update_lookup_ne.
      2:{ cbn in Hq. apply not_elem_of_cons in Hq as [? _]. done. }
      by apply update_lookup_eq. }
  generalize dependent (final (clearCurrent w')). intros w1 _ Hs Ha Hd.
  unfold with_windows. cbn [store db activeWindows]. rewrite Hs.
  unfold w'. cbn [store queue upd_activeWindowIds activeWindows] in *.
  split; [done|]. split; [apply lookup_delete_eq|].
  split.
  { destruct (queue s); cbn; rewrite list_elem_of_filter; by intros [? _]. }
  split; [done|].
  destruct (queue s) eqn:Hqs; cbn; by rewrite ?Hqs.
Qed.

Lemma closeNotice_advances_witness :
  let w := mkWorld
             (upd_activeWindowIds ["a"]
                (upd_queue [sample "b"] (first_shown (sample "a"))))
             (rows_after_second (sample "a") (sample "b")
                "2024-06-01T12:00:00.000Z")
             [] "2024-06-01T12:05:00.000Z"
             {[ "a" := mkWebview "notice-a" "/notice/announcement?id=a"
                         "Notice" 400 300 1500 760 ]}
             defaultConfig monitor_null false false in
  let o := closeNotice (Some (sample "a")) w in
  res o = resolved tt ∧
  activeWindows (final o) !! "a" = None ∧
  ("a" ∉ activeWindowIds (store (final o))) ∧
  db (final o) !! "a"
    = Some (apply_changes shown_change
              (set_status showing
                 (new_row (sample "a") "2024-06-01T12:00:00.000Z"))) ∧
  currentMessage (store (final o)) = Some (sample "b") ∧
  queue (store (final o)) = [].
Proof.
  apply (closeNotice_advances (sample "a")
           (set_status showing
              (new_row (sample "a") "2024-06-01T12:00:00.000Z"))
           (mkWorld
              (upd_activeWindowIds ["a"]
                 (upd_queue [sample "b"] (first_shown (sample "a"))))
              (rows_after_second (sample "a") (sample "b")
                 "2024-06-01T12:00:00.000Z")
              [] "2024-06-01T12:05:00.000Z"
              {[ "a" := mkWebview "notice-a" "/notice/announcement?id=a"
                          "Notice" 400 300 1500 760 ]}
              defaultConfig monitor_null false false)).
  - reflexivity.
  - reflexivity.
  - by eexists.
  - reflexivity.
  - apply (bool_decide_unpack _). reflexivity.
Defined.

(** X29.  When [close()] rejects, [closeNoticeWindow] catches the
    rejection and resolves without having done anything: the window stays
    in the map, its id stays active, no row changes and the current message
    stays; the same holds for [closeNotice]. *)
Theorem closeNoticeWindow_close_rejected (k : string)
    (current : option MessageType) (w : World) :
  closeRejects w = true →
  closeNoticeWindow k w = mkOut (resolved tt) w [] ∧
  closeNotice current w = mkOut (resolved tt) w [].
Proof.
  intros Hcr.
  assert (∀ j, closeNoticeWindow j w = mkOut (resolved tt) w []) as H.
  { intros j. unfold closeNoticeWindow, activeWindows_get.
    unfold bind at 1. cbn [res final events].
    destruct (activeWindows w !! j) as [win|]; [|by destruct w].
    unfold try_catch, window_close_call, bind, throw, ret.
    rewrite Hcr. cbn. by destruct w. }
  split; [apply H|]. destruct current as [m|]; [apply H|done].
Qed.

Lemma closeNoticeWindow_close_rejected_witness :
  let w := mkWorld
             (upd_activeWindowIds ["a"] (first_shown (sample "a")))
             (rows_after_first (sample "a") "2024-06-01T12:00:00.000Z")
             [] "2024-06-01T12:05:00.000Z"
             {[ "a" := mkWebview "notice-a" "/notice/announcement?id=a"
                         "Notice" 400 300 1500 760 ]}
             defaultConfig monitor_null false true in
  closeNoticeWindow "a" w = mkOut (resolved tt) w [] ∧
  closeNotice (Some (sample "a")) w = mkOut (resolved tt) w [].
Proof.
  apply (closeNoticeWindow_close_rejected "a" (Some (sample "a"))
           (mkWorld
              (upd_activeWindowIds ["a"] (first_shown (sample "a")))
              (rows_after_first (sample "a") "2024-06-01T12:00:00.000Z")
              [] "2024-06-01T12:05:00.000Z"
              {[ "a" := mkWebview "notice-a" "/notice/announcement?id=a"
                          "Notice" 400 300 1500 760 ]}
              defaultConfig monitor_null false true)).
  reflexivity.
Defined.

(** ** hideNotice on an unknown id *)

(** X20.  With no table call rejected, [hideNotice k] for an id that has
    no row and no window and is not the current message of the snapshot
    resolves and changes nothing: no row is created, the store and the
    windows are as before. *)
Theorem hideNotice_unknown (snapshot : QueueState) (k : string) (w : World) :
  faults w = [] → db w !! k = None → activeWindows w !! k = None →
  id <$> currentMessage snapshot ≠ Some k →
  let o := hideNotice snapshot k w in
  res o = resolved tt ∧ store (final o) = store w ∧ db (final o) = db w ∧
  activeWindows (final o) = activeWindows w.
Proof.
  destruct w as [s d fs n a c mo wt cr]. cbn [faults activeWindows db store].
  intros -> Hd Ha Hc. cbn zeta.
  assert (markAsHidden k (mkWorld s d [] n a c mo wt cr) =
          mkOut (resolved tt) (mkWorld s d [] n a c mo wt cr)
            [ev_db (call_update k (status_change hidden)) true]) as Hhide.
  { unfold markAsHidden. rewrite table_update_reliable.
    by rewrite update_missing. }
  unfold hideNotice. rewrite bool_decide_eq_false_2 by done.
  erewrite res_bind, final_bind by exact Hhide.
  erewrite res_bind, final_bind by (by apply closeNoticeWindow_unknown).
  done.
Qed.

Lemma hideNotice_unknown_witness :
  let o := hideNotice initialState "x" (fresh_world mixed_table []) in
  res o = resolved tt ∧ store (final o) = initialState ∧
  db (final o) = mixed_table ∧ activeWindows (final o) = ∅.
Proof.
  apply (hideNotice_unknown initialState "x" (fresh_world mixed_table [])).
  - reflexivity.
  - reflexivity.
  - reflexivity.
  - done.
Defined.

(** ** Configuration *)

(** X22.  A window opened after [setNoticeConfig], for a message that
    gives no size of its own, has the configured default width and height
    and loads the configured route prefix followed by the type and the id
    of the message; a field left out of the call keeps its earlier value. *)
Theorem setNoticeConfig_sizes_window (newConfig : PartialConfig)
    (m : MessageType) (w : World) :
  id m ∉ activeWindowIds (store w) →
  webviewThrows w = false →
  min_width m = None →
  min_height m = None →
  let w1 := final (setNoticeConfig newConfig w) in
  ∃ win,
    activeWindows (final (createNoticeWindow m w1)) !! id m = Some win ∧
    win_width win
      = default (defaultWidth (config w)) (p_defaultWidth newConfig) ∧
    win_height win
      = default (defaultHeight (config w)) (p_defaultHeight newConfig) ∧
    win_url win
      = default (routePrefix (config w)) (p_routePrefix newConfig)
        +:+ "/" +:+ type m +:+ "?id=" +:+ id m.
Proof.
  intros Hactive Hthrows Hw Hh w1.
  destruct (createNoticeWindow_opens m w1) as (_ & Hwin & _); [done..|].
  rewrite Hwin, lookup_insert_eq. eexists. split; [reflexivity|].
  unfold notice_window. rewrite Hw, Hh. done.
Qed.

Lemma setNoticeConfig_sizes_window_witness :
  ∃ win,
    activeWindows
      (final (createNoticeWindow (sample "a")
                (final (setNoticeConfig
                          (mkPartialConfig (Some "/popup") None
                             (Some 640%float) None)
                          (fresh_world ∅ [])))))
      !! "a" = Some win ∧
    win_width win = 640%float ∧ win_height win = 300%float ∧
    win_url win = "/popup/announcement?id=a".
Proof.
  apply (setNoticeConfig_sizes_window
           (mkPartialConfig (Some "/popup") None (Some 640%float) None)
           (sample "a") (fresh_world ∅ [])).
  - cbn. set_solver.
  - reflexivity.
  - reflexivity.
  - reflexivity.
Defined.

(** ** NoticeLayout *)

Lemma render_settled st :
  ls_loading st = false → render st ≠ view_loading.
Proof.
  unfold render. intros ->.
  destruct (ls_error st) as [e|], (ls_message st) as [m|];
    try case_bool_decide; done.
Qed.

(** X23.  [loadMessage] of [NoticeLayout] never rejects and always ends
    with [loading] unset, whatever the id parameter, the table, the
    rejected calls and the [onLoad] callback: the component does not stay
    on its loading screen. *)
Theorem loadMessage_settles (messageId : option string)
    (onLoad : option (MessageType → M unit)) (st : LayoutState) (w : World) :
  ∃ st',
    res (loadMessage messageId onLoad st w) = resolved st' ∧
    ls_loading st' = false ∧
    render st' ≠ view_loading.
Proof.
  assert (∀ st', res (loadMessage messageId onLoad st w) = resolved st' →
                 ls_loading st' = false →
                 ∃ st', res (loadMessage messageId onLoad st w) = resolved st' ∧
                        ls_loading st' = false ∧ render st' ≠ view_loading)
    as Hdone.
  { intros st' Hres Hl. exists st'. eauto using render_settled. }
  unfold loadMessage in *. destruct messageId as [[|ch k]|].
  - by eapply Hdone.
  - revert Hdone. unfold try_catch at 1 3. unfold bind at 1 3.
    unfold getMessage, table_call.
    destruct (faults w) as [|[] fs]; cbn [res final events ret].
    + destruct (Table.get (String ch k) (db w)) as [r|];
        [|intros Hdone; by eapply Hdone].
      destruct onLoad as [f|]; [|intros Hdone; by eapply Hdone].
      unfold try_catch, bind.
      destruct (res (f r _)); intros Hdone; by eapply Hdone.
    + intros Hdone; by eapply Hdone.
    + destruct (Table.get (String ch k) (db w)) as [r|];
        [|intros Hdone; by eapply Hdone].
      destruct onLoad as [f|]; [|intros Hdone; by eapply Hdone].
      unfold try_catch, bind.
      destruct (res (f r _)); intros Hdone; by eapply Hdone.
  - by eapply Hdone.
Qed.

(** X24.  With no [onLoad], starting from the initial state, what
    [NoticeLayout] ends up showing is: "No message ID provided" when the id
    parameter is missing or empty, and then no table call is made;
    otherwise, after the one [get] of that id, "Failed to load message"
    when the call is rejected;
    otherwise "Message not found" when the id has no row, and the children
    with the stored message when it has one.  The table is not changed. *)
Theorem loadMessage_view (messageId : option string) (w : World) :
  let o := loadMessage messageId None initialLayout w in
  ∃ st',
    res o = resolved st' ∧
    db (final o) = db w ∧
    render st' =
      match messageId with
      | None | Some "" => view_error "No message ID provided"
      | Some k =>
          match faults w, db w !! k with
          | true :: _, _ => view_error "Failed to load message"
          | _, None => view_error "Message not found"
          | _, Some r => view_children (message r)
          end
      end ∧
    events o =
      match messageId with
      | None | Some "" => []
      | Some k =>
          [ev_db (call_get k)
             match faults w with true :: _ => false | _ => true end]
      end.
Proof.
  destruct messageId as [[|ch k]|]; cbn zeta.
  - eexists. by repeat split.
  - unfold loadMessage, try_catch, bind, getMessage, table_call.
    destruct (faults w) as [|[] fs]; cbn [res final events ret];
      unfold Table.get;
      try (destruct (db w !! String ch k) as [r|]);
      eexists; (split; [reflexivity|]); (split; [done|]);
      (split; [done|]); done.
  - eexists. by repeat split.
Qed.

(** X25.  When the row exists but [onLoad] throws, the message is kept in
    the component's state, yet what is shown is "Failed to load message"
    and not the children. *)
Theorem loadMessage_onLoad_throws (k : string) (f : MessageType → M unit)
    (r : StoredMessage) (e : Error) (w : World) :
  k ≠ "" →
  faults w = [] →
  db w !! k = Some r →
  res (f r (final (getMessage k w))) = rejected e →
  ∃ st',
    res (loadMessage (Some k) (Some f) initialLayout w) = resolved st' ∧
    ls_message st' = Some (message r) ∧
    render st' = view_error "Failed to load message".
Proof.
  intros Hk Hfaults Hr Hf. destruct k as [|ch k]; [done|].
  revert Hf.
  unfold loadMessage, try_catch, bind, getMessage, table_call.
  rewrite Hfaults. cbn [res final events ret]. unfold Table.get. rewrite Hr.
  cbn [res final events ret tail]. intros ->.
  eexists. split; [reflexivity|]. done.
Qed.

Lemma loadMessage_onLoad_throws_witness :
  ∃ st',
    res (loadMessage (Some "a") (Some (λ _, throw webview_failed))
           initialLayout
           (fresh_world {[ "a" := sample_row "a" showing 0 ]} []))
      = resolved st' ∧
    ls_message st' = Some (sample "a") ∧
    render st' = view_error "Failed to load message".
Proof.
  apply (loadMessage_onLoad_throws "a" (λ _, throw webview_failed)
           (sample_row "a" showing 0) webview_failed
           (fresh_world {[ "a" := sample_row "a" showing 0 ]} [])).
  - done.
  - reflexivity.
  - reflexivity.
  - reflexivity.
Defined.

(** ** Logout *)

(** X26.  With no table call rejected, an [initializeFromDatabase] that
    follows [clearOnLogout] finds nothing to show: it only sets
    [initialized], and changes neither the table nor the windows. *)
Theorem clearOnLogout_then_initialize (w : World) :
  faults w = [] →
  let w1 := final (clearOnLogout w) in
  let o := initializeFromDatabase w1 in
  res o = resolved tt ∧
  store (final o) = upd_initialized true initialState ∧
  db (final o) = db w1 ∧
  activeWindows (final o) = activeWindows w.
Proof.
  destruct w as [s d fs n a c mo wt cr]. cbn [faults]. intros ->. cbn zeta.
  unfold clearOnLogout, clearPendingMessages, initializeFromDatabase,
    getPendingMessages.
  unfold bind, get, set. cbn.
  rewrite no_pending_after_delete. by cbn.
Qed.

Lemma clearOnLogout_then_initialize_witness :
  let w1 := final (clearOnLogout (fresh_world mixed_table [])) in
  let o := initializeFromDatabase w1 in
  res o = resolved tt ∧
  store (final o) = upd_initialized true initialState ∧
  db (final o) = db w1 ∧
  activeWindows (final o) = ∅.
Proof.
  apply (clearOnLogout_then_initialize (fresh_world mixed_table [])).
  reflexivity.
Defined.

(** X27.  When the delete of [clearOnLogout] is rejected, the promise
    rejects but the store is already reset and every row is still there: a
    following [initializeFromDatabase] brings the [pending] rows back, the
    first by position as the current message and the others as the queue. *)
Theorem clearOnLogout_rejected (w : World) (rows : list StoredMessage) :
  faults w = [true] →
  Table.sortBy_queuePosition (Table.where_queueStatus [pending] (db w))
    = rows →
  let o := clearOnLogout w in
  let o' := initializeFromDatabase (final o) in
  res o = rejected (store_rejected (call_delete [pending; showing])) ∧
  store (final o) = initialState ∧
  db (final o) = db w ∧
  res o' = resolved tt ∧
  match rows with
  | [] => store (final o') = upd_initialized true initialState
  | r :: rest =>
      currentMessage (store (final o')) = Some (message r) ∧
      queue (store (final o')) = message <$> rest ∧
      isProcessing (store (final o')) = true
  end.
Proof.
  destruct w as [s d fs n a c mo wt cr]. cbn [faults db]. intros -> Hrows.
  cbn zeta.
  unfold clearOnLogout, clearPendingMessages, initializeFromDatabase,
    getPendingMessages.
  unfold bind, get, set. cbn. rewrite Hrows.
  do 3 (split; [done|]).
  destruct rows as [|r rest]; cbn; [done|].
  unfold with_store. cbn.
  match goal with |- context [showNext (mkWorld ?s' ?d' _ _ _ _ _ _ _)] =>
    destruct (showNext_final s' d' n a c mo wt cr) as [-> ->] end.
  unfold shown_next. by cbn.
Qed.

Lemma clearOnLogout_rejected_witness :
  let o := clearOnLogout (fresh_world mixed_table [true]) in
  let o' := initializeFromDatabase (final o) in
  res o = rejected (store_rejected (call_delete [pending; showing])) ∧
  store (final o) = initialState ∧
  db (final o) = mixed_table ∧
  res o' = resolved tt ∧
  currentMessage (store (final o')) = Some (sample "p") ∧
  queue (store (final o')) = [] ∧
  isProcessing (store (final o')) = true.
Proof.
  apply (clearOnLogout_rejected (fresh_world mixed_table [true])
           [sample_row "p" pending 0]).
  - reflexivity.
  - vm_compute. reflexivity.
Defined.

(** ** hideNotice on a queued message *)

(** X28.  With no table call rejected, [hideNotice] for a message that
    waits at the head of the queue, has no window and is not the current
    message of the snapshot marks its row [hidden] but leaves it in the
    queue: the next [clearCurrent] makes it the current message and its row
    [showing]. *)
Theorem hideNotice_queued_still_shown (snapshot : QueueState)
    (m : MessageType) (rest : list MessageType) (r : StoredMessage)
    (w : World) :
  faults w = [] →
  activeWindows w !! id m = None →
  id <$> currentMessage snapshot ≠ Some (id m) →
  queue (store w) = m :: rest →
  db w !! id m = Some r →
  let o := hideNotice snapshot (id m) w in
  let o' := clearCurrent (final o) in
  res o = resolved tt ∧
  store (final o) = store w ∧
  db (final o) !! id m = Some (set_status hidden r) ∧
  currentMessage (store (final o')) = Some m ∧
  ∃ r', db (final o') !! id m = Some r' ∧ queueStatus r' = showing.
Proof.
  destruct w as [s d fs n a c mo wt cr]. cbn [faults activeWindows db store].
  intros -> Ha Hc Hq Hr. cbn zeta.
  set (d1 := Table.update (id m) (status_change hidden) d).
  assert (markAsHidden (id m) (mkWorld s d [] n a c mo wt cr) =
          mkOut (resolved tt) (mkWorld s d1 [] n a c mo wt cr)
            [ev_db (call_update (id m) (status_change hidden)) true]) as Hhide.
  { unfold markAsHidden. by rewrite table_update_reliable. }
  assert (res (hideNotice snapshot (id m) (mkWorld s d [] n a c mo wt cr))
            = resolved tt ∧
          final (hideNotice snapshot (id m) (mkWorld s d [] n a c mo wt cr))
            = mkWorld s d1 [] n a c mo wt cr) as [-> ->].
  { unfold hideNotice. rewrite bool_decide_eq_false_2 by done.
    erewrite res_bind, final_bind by exact Hhide.
    by erewrite res_bind, final_bind by (by apply closeNoticeWindow_unknown). }
  assert (d1 !! id m = Some (set_status hidden r)) as Hd1.
  { unfold d1. by apply update_lookup_eq. }
  cbn [store db]. split; [done|]. split; [done|]. split; [done|].
  split.
  { rewrite clearCurrent_store. cbn [store]. by rewrite Hq. }
  unfold clearCurrent, bind, set, get, spawn. cbn. rewrite Hq. cbn.
  unfold with_store. cbn.
  match goal with |- context [showNext (mkWorld ?s' ?d' _ _ ?a' _ _ _ _)] =>
    destruct (showNext_final s' d' n a' c mo wt cr) as [_ ->] end.
  unfold shown_next. cbn -[bulk_positions Table.update positions].
  rewrite Hq. cbn [snd].
  destruct (bulk_lookup_frame (positions rest)
              (Table.update (id m) (status_change showing) d1) (id m)
              (set_status showing (set_status hidden r)))
    as (r' & Hr' & Hsame).
  { by apply update_lookup_eq. }
  exists r'. split; [done|]. destruct Hsame as (_&_&_&_&->). reflexivity.
Qed.

Lemma hideNotice_queued_still_shown_witness :
  let o := hideNotice (store idle_two) "a" idle_two in
  let o' := clearCurrent (final o) in
  res o = resolved tt ∧
  store (final o) = store idle_two ∧
  db (final o) !! "a" = Some (set_status hidden (sample_row "a" pending 0)) ∧
  currentMessage (store (final o')) = Some (sample "a") ∧
  ∃ r', db (final o') !! "a" = Some r' ∧ queueStatus r' = showing.
Proof.
  apply (hideNotice_queued_still_shown (store idle_two) (sample "a")
           [sample "b"] (sample_row "a" pending 0) idle_two).
  - reflexivity.
  - reflexivity.
  - done.
  - reflexivity.
  - reflexivity.
Defined.
